(** * The SPSC ring buffer of [internal/queue] and its unguarded twin

    A shallow embedding of [RingBuffer] (package [queue]) and of [spscRing]
    (package [combined_test]), followed by the properties the specification
    states about them.

    Conventions of the embedding.
    - A [uint64] is a [Z] in [0, 2^64); every arithmetic operation of the
      source is written with its wrap-around ([U64.add], [U64.sub],
      [U64.shl]).  Go's [int] is taken to be 64 bits wide, as on the
      amd64/arm64 targets the repository builds for.
    - A slice is a [list]; an index outside the slice panics, as in Go.
    - A call is a function from the receiver's state to an outcome and the
      state after the call.  The atomics are modelled by their sequential
      meaning (a [Load] reads the field, a [Store] writes it): the claims
      verified here are about sequential interleavings of whole calls.
    - Memory is not modelled: [make] fails only where its length does not
      fit an [int], never for lack of memory. *)

From Stdlib Require Import ZArith Lia.
From stdpp Require Import base numbers list strings.

Local Open Scope Z_scope.

(** ** Machine integers *)

Module U64.

Definition modulus : Z := 2 ^ 64.

(** The largest value of Go's [int]. *)
Definition max_int : Z := 2 ^ 63 - 1.
Definition min_int : Z := - 2 ^ 63.

Definition wrap (z : Z) : Z := z mod modulus.

Definition add (a b : Z) : Z := wrap (a + b).
Definition sub (a b : Z) : Z := wrap (a - b).

(** [n << k] on a [uint64]: the bits shifted past position 63 are lost. *)
Definition shl (n k : Z) : Z := wrap (Z.shiftl n k).

(** The conversion [uint64(i)] of an [int]: two's complement. *)
Definition of_int (i : Z) : Z := wrap i.

(** The conversion [int(u)] of a [uint64]. *)
Definition to_int (u : Z) : Z := if u <=? max_int then u else u - modulus.

(** [atomic.Uint32.CompareAndSwap old new] on a cell holding [cur]:
    whether the swap happened, and the cell afterwards. *)
Definition CompareAndSwap (cur old new : Z) : bool * Z :=
  if cur =? old then (true, new) else (false, cur).

End U64.

(** ** Outcomes of a call *)

Inductive outcome (A : Type) : Type :=
| Returned (a : A)
| Panicked (msg : string).
Arguments Returned {A} a.
Arguments Panicked {A} msg.

Definition is_returned {A} (o : outcome A) : bool :=
  match o with Returned _ => true | Panicked _ => false end.

(** Go gives every type a zero value ([var zero T]). *)
Class GoType (T : Type) := zero_value : T.

#[export] Instance int_GoType : GoType Z := 0.

(** [make([]T, n)] for a [uint64] length [n]: a length that does not fit an
    [int] panics at run time; otherwise the slice holds [n] zero values. *)
Definition make_slice `{GoType T} (n : Z) : outcome (list T) :=
  if n <=? U64.max_int
  then Returned (replicate (Z.to_nat n) zero_value)
  else Panicked "runtime error: makeslice: len out of range".

(** [len(s)], an [int]. *)
Definition len {T} (s : list T) : Z := Z.of_nat (length s).

(** The rounding loop shared by [NewRingBuffer] and [newSPSCRing]:
<<
    n := uint64(1)
    for n < uint64(size) { n <<= 1 }
>>
    [round_up_loop fuel n target] runs it from the current [n] and returns
    the [n] the loop exits with, or [None] when [fuel] iterations were not
    enough to leave it. *)
Fixpoint round_up_loop (fuel : nat) (n target : Z) : option Z :=
  match fuel with
  | O => None
  | S fuel' =>
      if n <? target then round_up_loop fuel' (U64.shl n 1) target
      else Some n
  end.

(** ** Package [queue]: the guarded ring buffer *)

Module Queue.

Record RingBuffer (T : Type) : Type := mkRingBuffer {
  buf : list T;
  mask : Z;
  head : Z;          (* atomic.Uint64, written by the producer *)
  tail : Z;          (* atomic.Uint64, written by the consumer *)
  pushActive : Z;    (* atomic.Uint32, SPSC guard *)
  popActive : Z      (* atomic.Uint32, SPSC guard *)
}.
Arguments mkRingBuffer {T}.
Arguments buf {T}.
Arguments mask {T}.
Arguments head {T}.
Arguments tail {T}.
Arguments pushActive {T}.
Arguments popActive {T}.

Definition push_panic : string :=
  "queue: concurrent Push on SPSC RingBuffer - only one producer allowed".
Definition pop_panic : string :=
  "queue: concurrent Pop on SPSC RingBuffer - only one consumer allowed".
Definition index_panic : string :=
  "runtime error: index out of range".

Section WithType.
Context {T : Type} `{GoType T}.

Definition set_pushActive (x : Z) (r : RingBuffer T) : RingBuffer T :=
  mkRingBuffer (buf r) (mask r) (head r) (tail r) x (popActive r).

Definition set_popActive (x : Z) (r : RingBuffer T) : RingBuffer T :=
  mkRingBuffer (buf r) (mask r) (head r) (tail r) (pushActive r) x.

(** [NewRingBuffer size], with the fuel of its loop.  [None]: the loop
    is still running when the fuel is spent. *)
Definition NewRingBuffer (fuel : nat) (size : Z)
  : option (outcome (RingBuffer T)) :=
  match round_up_loop fuel 1 (U64.of_int size) with
  | None => None
  | Some n =>
      Some match make_slice n with
           | Panicked msg => Panicked msg
           | Returned b =>
               Returned {| buf := b; mask := U64.sub n 1;
                           head := 0; tail := 0;
                           pushActive := 0; popActive := 0 |}
           end
  end.

(** The body of [Push], between the guard and the deferred release. *)
Definition Push_body (v : T) (r : RingBuffer T)
  : outcome bool * RingBuffer T :=
  let h := head r in
  let t := tail r in
  if U64.sub h t >=? len (buf r) then (Returned false, r)
  else
    let i := Z.land h (mask r) in
    if i <? len (buf r) then
      (Returned true,
       {| buf := <[Z.to_nat i := v]> (buf r); mask := mask r;
          head := U64.add h 1; tail := tail r;
          pushActive := pushActive r; popActive := popActive r |})
    else (Panicked index_panic, r).

Definition Push (v : T) (r : RingBuffer T)
  : outcome bool * RingBuffer T :=
  let (swapped, flag) := U64.CompareAndSwap (pushActive r) 0 1 in
  if negb swapped then (Panicked push_panic, r)
  else
    let (res, r') := Push_body v (set_pushActive flag r) in
    (* defer r.pushActive.Store(0): runs on return and on panic *)
    (res, set_pushActive 0 r').

(** The body of [Pop], between the guard and the deferred release. *)
Definition Pop_body (r : RingBuffer T)
  : outcome (T * bool) * RingBuffer T :=
  let t := tail r in
  let h := head r in
  if t >=? h then (Returned (zero_value, false), r)
  else
    match buf r !! Z.to_nat (Z.land t (mask r)) with
    | None => (Panicked index_panic, r)
    | Some v =>
        (Returned (v, true),
         {| buf := buf r; mask := mask r;
            head := head r; tail := U64.add t 1;
            pushActive := pushActive r; popActive := popActive r |})
    end.

Definition Pop (r : RingBuffer T)
  : outcome (T * bool) * RingBuffer T :=
  let (swapped, flag) := U64.CompareAndSwap (popActive r) 0 1 in
  if negb swapped then (Panicked pop_panic, r)
  else
    let (res, r') := Pop_body (set_popActive flag r) in
    (* defer r.popActive.Store(0) *)
    (res, set_popActive 0 r').

Definition Len (r : RingBuffer T) : Z :=
  U64.to_int (U64.sub (head r) (tail r)).

Definition Cap (r : RingBuffer T) : Z := len (buf r).

End WithType.

End Queue.

(** ** Sequential use: a client that calls [Push] and [Pop] one at a time *)

Inductive op (T : Type) : Type :=
| OpPush (v : T)
| OpPop.
Arguments OpPush {T} v.
Arguments OpPop {T}.

(** What a call returned to its caller. *)
Inductive event (T : Type) : Type :=
| EvPush (v : T) (res : outcome bool)
| EvPop (res : outcome (T * bool)).
Arguments EvPush {T} v res.
Arguments EvPop {T} res.

Definition ev_returned {T} (e : event T) : bool :=
  match e with
  | EvPush _ res => is_returned res
  | EvPop res => is_returned res
  end.

(** The values of the [Push] calls that returned [true], in call order. *)
Fixpoint pushed {T} (evs : list (event T)) : list T :=
  match evs with
  | [] => []
  | EvPush v (Returned true) :: evs' => v :: pushed evs'
  | _ :: evs' => pushed evs'
  end.

(** The values of the [Pop] calls that returned [(v, true)], in call order. *)
Fixpoint popped {T} (evs : list (event T)) : list T :=
  match evs with
  | [] => []
  | EvPop (Returned (v, true)) :: evs' => v :: popped evs'
  | _ :: evs' => popped evs'
  end.

(** A sequential client over any state with a [Push] and a [Pop].  An
    unrecovered panic ends the run. *)
Section Client.
Context {T S : Type}.
Variable push : T → S → outcome bool * S.
Variable pop : S → outcome (T * bool) * S.

Definition call (o : op T) (s : S) : event T * S :=
  match o with
  | OpPush v => let (res, s') := push v s in (EvPush v res, s')
  | OpPop => let (res, s') := pop s in (EvPop res, s')
  end.

Fixpoint run_with (ops : list (op T)) (s : S) : list (event T) * S :=
  match ops with
  | [] => ([], s)
  | o :: ops' =>
      let (e, s') := call o s in
      if ev_returned e then
        let (evs, s'') := run_with ops' s' in (e :: evs, s'')
      else ([e], s')
  end.
End Client.

Module QueueClient.
Import Queue.

Section WithType.
Context {T : Type} `{GoType T}.

Definition run : list (op T) → RingBuffer T → list (event T) * RingBuffer T :=
  run_with Push Pop.

(** The states a sequential client can bring a constructed buffer to. *)
Definition reachable (r : RingBuffer T) : Prop :=
  ∃ fuel size r0 ops evs,
    NewRingBuffer fuel size = Some (Returned r0) ∧ run ops r0 = (evs, r).

(** The slot holding logical position [tail + i]. *)
Definition slot_at (r : RingBuffer T) (i : nat) : T :=
  default zero_value
    (buf r !! Z.to_nat (Z.land (U64.add (tail r) (Z.of_nat i)) (mask r))).

(** The values at the logical positions [tail, head), oldest first. *)
Definition contents (r : RingBuffer T) : list T :=
  map (slot_at r) (seq 0 (Z.to_nat (U64.sub (head r) (tail r)))).

(** The state a successful [Push v] leaves, and the one a successful
    [Pop] leaves. *)
Definition after_push (v : T) (r : RingBuffer T) : RingBuffer T :=
  {| buf := <[Z.to_nat (Z.land (head r) (mask r)) := v]> (buf r);
     mask := mask r;
     head := U64.add (head r) 1; tail := tail r;
     pushActive := 0; popActive := popActive r |}.

Definition after_pop (r : RingBuffer T) : RingBuffer T :=
  {| buf := buf r; mask := mask r;
     head := head r; tail := U64.add (tail r) 1;
     pushActive := pushActive r; popActive := 0 |}.

(** The representation invariant of a buffer between two calls: the
    storage has [2^k] slots, the mask fits it, the cursors are [uint64]
    values at most [2^k] apart, and no call is in progress. *)
Record wf_at (k : Z) (r : RingBuffer T) : Prop := {
  wf_k : 0 ≤ k ≤ 62;
  wf_len : len (buf r) = 2 ^ k;
  wf_mask : mask r = 2 ^ k - 1;
  wf_head : 0 ≤ head r < U64.modulus;
  wf_tail : 0 ≤ tail r < U64.modulus;
  wf_count : U64.sub (head r) (tail r) ≤ 2 ^ k;
  wf_pushActive : pushActive r = 0;
  wf_popActive : popActive r = 0
}.

(** A one-slot buffer that is empty with both cursors at [n], and the
    state one more [Push] leaves when [n] is the last [uint64]. *)
Definition one_slot (x : T) (n : Z) : RingBuffer T :=
  {| buf := [x]; mask := 0; head := n; tail := n;
     pushActive := 0; popActive := 0 |}.

Definition one_slot_wrapped (x : T) : RingBuffer T :=
  {| buf := [x]; mask := 0; head := 0; tail := U64.modulus - 1;
     pushActive := 0; popActive := 0 |}.
End WithType.
End QueueClient.

(** Concrete states used to exercise the claims on [RingBuffer[int]]. *)
Module Scenario.
Import Queue.

(** [NewRingBuffer[int](2)]. *)
Definition fresh2 : RingBuffer Z := mkRingBuffer [0; 0] 1 0 0 0 0.

(** [fresh2] after [Push(1)]. *)
Definition holding_one : RingBuffer Z := mkRingBuffer [1; 0] 1 1 0 0 0.

(** [fresh2] after [Push(1)] and [Push(2)]: full. *)
Definition full2 : RingBuffer Z := mkRingBuffer [1; 2] 1 2 0 0 0.

(** The last cursor value of a [uint64]. *)
Definition last_cursor : Z := 18446744073709551615.
End Scenario.

(** The specification's rounding: the least power of two that is at least
    [c]. *)
Definition next_power_of_two (c : Z) : Z := 2 ^ Z.log2_up c.

(** ** Package [combined_test]: the unguarded ring of the benchmarks *)

Module Combined.

Record spscRing : Type := mkSpscRing {
  buf : list Z;
  mask : Z;
  head : Z;
  tail : Z
}.

Definition newSPSCRing (fuel : nat) (size : Z) : option (outcome spscRing) :=
  match round_up_loop fuel 1 (U64.of_int size) with
  | None => None
  | Some n =>
      Some match make_slice n with
           | Panicked msg => Panicked msg
           | Returned b =>
               Returned {| buf := b; mask := U64.sub n 1;
                           head := 0; tail := 0 |}
           end
  end.

Definition Push (v : Z) (r : spscRing) : outcome bool * spscRing :=
  let h := head r in
  let t := tail r in
  if U64.sub h t >=? len (buf r) then (Returned false, r)
  else
    let i := Z.land h (mask r) in
    if i <? len (buf r) then
      (Returned true,
       {| buf := <[Z.to_nat i := v]> (buf r); mask := mask r;
          head := U64.add h 1; tail := tail r |})
    else (Panicked Queue.index_panic, r).

Definition Pop (r : spscRing) : outcome (Z * bool) * spscRing :=
  let t := tail r in
  let h := head r in
  if t >=? h then (Returned (0, false), r)
  else
    match buf r !! Z.to_nat (Z.land t (mask r)) with
    | None => (Panicked Queue.index_panic, r)
    | Some v =>
        (Returned (v, true),
         {| buf := buf r; mask := mask r;
            head := head r; tail := U64.add t 1 |})
    end.

Definition run : list (op Z) → spscRing → list (event Z) * spscRing :=
  run_with Push Pop.

(** The guarded and the unguarded ring agree on everything they share. *)
Definition same_ring (r : Queue.RingBuffer Z) (s : spscRing) : Prop :=
  Queue.buf r = buf s ∧ Queue.mask r = mask s ∧
  Queue.head r = head s ∧ Queue.tail r = tail s.

(** What relates the two between calls: the shared fields agree and both
    claim flags of the guarded ring are clear. *)
Definition in_step (r : Queue.RingBuffer Z) (s : spscRing) : Prop :=
  same_ring r s ∧ Queue.pushActive r = 0 ∧ Queue.popActive r = 0.

End Combined.

(** ** Package [queue]: the channel-backed queue and the [Queue] interface *)

Module ChannelQ.

(** A buffered channel that is never closed and has no goroutine parked on
    it: the values buffered, oldest first, and the capacity it was made
    with. *)
Record ChannelQueue (T : Type) : Type := mkChannelQueue {
  ch_buffered : list T;
  ch_cap : Z
}.
Arguments mkChannelQueue {T}.
Arguments ch_buffered {T}.
Arguments ch_cap {T}.

Section WithType.
Context {T : Type} `{GoType T}.

(** [NewChannel size]: [make(chan T, size)] panics on a negative size. *)
Definition NewChannel (size : Z) : outcome (ChannelQueue T) :=
  if size <? 0 then Panicked "makechan: size out of range"
  else Returned {| ch_buffered := []; ch_cap := size |}.

(** [select { case q.ch <- v: return true; default: return false }] *)
Definition Push (v : T) (q : ChannelQueue T) : outcome bool * ChannelQueue T :=
  if len (ch_buffered q) <? ch_cap q
  then (Returned true,
        {| ch_buffered := ch_buffered q ++ [v]; ch_cap := ch_cap q |})
  else (Returned false, q).

(** [select { case v := <-q.ch: return v, true; default: return zero, false }] *)
Definition Pop (q : ChannelQueue T) : outcome (T * bool) * ChannelQueue T :=
  match ch_buffered q with
  | v :: rest =>
      (Returned (v, true), {| ch_buffered := rest; ch_cap := ch_cap q |})
  | [] => (Returned (zero_value, false), q)
  end.

Definition Len (q : ChannelQueue T) : Z := len (ch_buffered q).

Definition Cap (q : ChannelQueue T) : Z := ch_cap q.

Definition run : list (op T) → ChannelQueue T → list (event T) * ChannelQueue T :=
  run_with Push Pop.

End WithType.

End ChannelQ.

(** A ring buffer and a channel queue in step: the ring stores what the
    channel buffers, has its capacity, and its head has not wrapped. *)
Definition mirrors `{GoType T} (k : Z) (r : Queue.RingBuffer T)
    (q : ChannelQ.ChannelQueue T) : Prop :=
  QueueClient.wf_at k r ∧ Queue.tail r ≤ Queue.head r ∧
  QueueClient.contents r = ChannelQ.ch_buffered q ∧ ChannelQ.ch_cap q = 2 ^ k.

(** The interface [Queue[T]]: what [RingBuffer] and [ChannelQueue] both
    implement. *)
Class Queue (Q T : Type) := {
  q_Push : T → Q → outcome bool * Q;
  q_Pop : Q → outcome (T * bool) * Q
}.

#[export] Instance RingBuffer_Queue `{GoType T} : Queue (Queue.RingBuffer T) T :=
  {| q_Push := Queue.Push; q_Pop := Queue.Pop |}.

#[export] Instance ChannelQueue_Queue `{GoType T} : Queue (ChannelQ.ChannelQueue T) T :=
  {| q_Push := ChannelQ.Push; q_Pop := ChannelQ.Pop |}.

(** ** The callers: the interface test and the push/pop loops *)

Module Callers.

(** Sequencing of calls on a queue; a panic ends the caller. *)
Definition and_then {S A B : Type} (c : outcome A * S)
    (k : A → S → outcome B * S) : outcome B * S :=
  match c with
  | (Returned a, s) => k a s
  | (Panicked msg, s) => (Panicked msg, s)
  end.

(** The failures [testQueue] can report through [t.Errorf], in the order of
    its checks. *)
Inductive test_failure (T : Type) : Type :=
| PopOnEmptySucceeded
| PushFailed
| PopAfterPushFailed
| WrongValue (want got : T)
| PopAfterDrainSucceeded.
Arguments PopOnEmptySucceeded {T}.
Arguments PushFailed {T}.
Arguments PopAfterPushFailed {T}.
Arguments WrongValue {T} want got.
Arguments PopAfterDrainSucceeded {T}.

(** [testQueue(t, q, val, name)]: the failures reported, in order
    ([t.Errorf] does not stop the test; [name] only labels the messages,
    which the constructors of [test_failure] stand for). *)
Definition testQueue {Q T : Type} `{Queue Q T} `{EqDecision T}
    (q : Q) (val : T) : outcome (list (test_failure T)) * Q :=
  and_then (q_Pop q) (λ '(_, ok0) q,
    let f0 := if ok0 then [PopOnEmptySucceeded] else [] in
  and_then (q_Push val q) (λ pushed_ok q,
    let f1 := if pushed_ok then [] else [PushFailed] in
  and_then (q_Pop q) (λ '(got, ok) q,
    let f2 := if ok then [] else [PopAfterPushFailed] in
    let f3 := if decide (got = val) then [] else [WrongValue val got] in
  and_then (q_Pop q) (λ '(_, ok1) q,
    let f4 := if ok1 then [PopAfterDrainSucceeded] else [] in
    (Returned (f0 ++ f1 ++ f2 ++ f3 ++ f4), q))))).

(** The loop of [cmd/channel] and of the [PushPop] benchmarks,
<<
    for i := 0; i < n; i++ { q.Push(i); val, ok = q.Pop() }
>>
    with [todo] iterations left from index [i]; it returns the last
    [val, ok]. *)
Fixpoint push_pop_loop {Q : Type} `{Queue Q Z}
    (todo : nat) (i : Z) (val : Z) (ok : bool) (q : Q)
    : outcome (Z * bool) * Q :=
  match todo with
  | O => (Returned (val, ok), q)
  | S todo' =>
      and_then (q_Push i q) (λ _ q,
      and_then (q_Pop q) (λ '(val, ok) q,
        push_pop_loop todo' (i + 1) val ok q))
  end.

Definition PushPop {Q : Type} `{Queue Q Z} (n : Z) (q : Q)
  : outcome (Z * bool) * Q :=
  push_pop_loop (Z.to_nat n) 0 0 false q.

End Callers.

(** ** Package [cancel]: the atomic canceler *)

Module Cancel.

Record AtomicCanceler : Type := mkAtomicCanceler { done : bool }.

Definition NewAtomic : AtomicCanceler := {| done := false |}.

Definition Done (a : AtomicCanceler) : bool := done a.

Definition Cancel (a : AtomicCanceler) : AtomicCanceler := {| done := true |}.

Definition Reset (a : AtomicCanceler) : AtomicCanceler := {| done := false |}.

Inductive cancel_op : Type := CallDone | CallCancel | CallReset.

(** A sequence of calls; what each [Done()] among them returned. *)
Fixpoint calls (ops : list cancel_op) (a : AtomicCanceler)
  : list bool * AtomicCanceler :=
  match ops with
  | [] => ([], a)
  | CallDone :: ops' =>
      let (ds, a') := calls ops' a in (Done a :: ds, a')
  | CallCancel :: ops' => calls ops' (Cancel a)
  | CallReset :: ops' => calls ops' (Reset a)
  end.

(** Whether the last [Cancel] or [Reset] among [ops] is a [Cancel];
    [before] when there is neither. *)
Fixpoint last_write (before : bool) (ops : list cancel_op) : bool :=
  match ops with
  | [] => before
  | CallDone :: ops' => last_write before ops'
  | CallCancel :: ops' => last_write true ops'
  | CallReset :: ops' => last_write false ops'
  end.

End Cancel.

(** ** Package [tick]: the batch ticker *)

Module Tick.

(** Signed 64-bit wrap-around, for [count++] on an [int]. *)
Definition wrap_int (z : Z) : Z := U64.to_int (U64.wrap z).

Section WithClock.
(** [time.Time], [Time.Sub] (a [Duration] in nanoseconds) and the readings
    [time.Now()] returns, by the number of readings taken before. *)
Context {Time : Type}.
Variable Sub : Time → Time → Z.
Variable clock : nat → Time.

Record BatchTicker : Type := mkBatchTicker {
  interval : Z;
  every : Z;
  count : Z;
  lastTick : Time
}.

(** The ticker, and the number of clock readings taken so far. *)
Definition world : Type := (BatchTicker * nat)%type.

Definition NewBatch (interval every : Z) (reads : nat) : world :=
  let every := if every <? 1 then 1 else every in
  ({| interval := interval; every := every; count := 0;
      lastTick := clock reads |}, S reads).

(** [Tick]: whether it fired, and, when it read the clock, the reading. *)
Definition Tick (w : world) : outcome (bool * option Time) * world :=
  let (b, reads) := w in
  let b := {| interval := interval b; every := every b;
              count := wrap_int (count b + 1); lastTick := lastTick b |} in
  if every b =? 0 then (Panicked "runtime error: integer divide by zero", (b, reads))
  else if negb (Z.rem (count b) (every b) =? 0) then (Returned (false, None), (b, reads))
  else
    let now := clock reads in
    if Sub now (lastTick b) >=? interval b then
      (Returned (true, Some now),
       ({| interval := interval b; every := every b;
           count := count b; lastTick := now |}, S reads))
    else (Returned (false, Some now), (b, S reads)).

Definition Reset (w : world) : world :=
  let (b, reads) := w in
  ({| interval := interval b; every := every b; count := 0;
      lastTick := clock reads |}, S reads).

Definition Every (b : BatchTicker) : Z := every b.

(** [n] calls of [Tick] in a row: what each returned. *)
Fixpoint ticks (n : nat) (w : world)
  : list (outcome (bool * option Time)) * world :=
  match n with
  | O => ([], w)
  | S n' =>
      let (res, w') := Tick w in
      let (rest, w'') := ticks n' w' in (res :: rest, w'')
  end.

(** The readings at which a run of calls fired are each at least
    [interval] after the one before, starting from [last]. *)
Fixpoint spaced (interval : Z) (last : Time)
    (results : list (outcome (bool * option Time))) : Prop :=
  match results with
  | [] => True
  | Returned (true, Some now) :: rest =>
      interval ≤ Sub now last ∧ spaced interval now rest
  | _ :: rest => spaced interval last rest
  end.

End WithClock.

(** [AtomicTicker]: [interval] and [lastTick] in nanoseconds of the
    monotonic clock. *)
Record AtomicTicker : Type := mkAtomicTicker {
  a_interval : Z;
  a_lastTick : Z
}.

(** [NewAtomicTicker(interval)], [nanotime()] returning [now]. *)
Definition NewAtomicTicker (interval now : Z) : AtomicTicker :=
  {| a_interval := interval; a_lastTick := now |}.

(** [AtomicTicker.Tick], [nanotime()] returning [now]; the subtraction is
    that of [int64]. *)
Definition AtomicTick (now : Z) (a : AtomicTicker) : bool * AtomicTicker :=
  let last := a_lastTick a in
  if wrap_int (now - last) >=? a_interval a then
    let (swapped, cell) := U64.CompareAndSwap (a_lastTick a) last now in
    if swapped
    then (true, {| a_interval := a_interval a; a_lastTick := cell |})
    else (false, a)
  else (false, a).

(** [AtomicTicker.Reset], [nanotime()] returning [now]. *)
Definition AtomicReset (now : Z) (a : AtomicTicker) : AtomicTicker :=
  {| a_interval := a_interval a; a_lastTick := now |}.

(** One [Tick] per clock reading. *)
Fixpoint atomic_ticks (nows : list Z) (a : AtomicTicker)
  : list bool * AtomicTicker :=
  match nows with
  | [] => ([], a)
  | now :: nows' =>
      let (fired, a') := AtomicTick now a in
      let (rest, a'') := atomic_ticks nows' a' in (fired :: rest, a'')
  end.

(** [TSCTicker]; [cyclesPerNs] is a [float64], which [Tick] never reads. *)
Record TSCTicker (Float : Type) : Type := mkTSCTicker {
  intervalCycles : Z;
  t_lastTick : Z;
  cyclesPerNs : Float
}.
Arguments mkTSCTicker {Float}.
Arguments intervalCycles {Float}.
Arguments t_lastTick {Float}.
Arguments cyclesPerNs {Float}.

(** [TSCTicker.Tick], [rdtsc()] returning [now]; the subtraction is that of
    [uint64]. *)
Definition TSCTick {Float} (now : Z) (t : TSCTicker Float)
  : bool * TSCTicker Float :=
  let last := t_lastTick t in
  if U64.sub now last >=? intervalCycles t then
    let (swapped, cell) := U64.CompareAndSwap (t_lastTick t) last now in
    if swapped
    then (true, {| intervalCycles := intervalCycles t; t_lastTick := cell;
                   cyclesPerNs := cyclesPerNs t |})
    else (false, t)
  else (false, t).

Fixpoint tsc_ticks {Float} (nows : list Z) (t : TSCTicker Float)
  : list bool * TSCTicker Float :=
  match nows with
  | [] => ([], t)
  | now :: nows' =>
      let (fired, t') := TSCTick now t in
      let (rest, t'') := tsc_ticks nows' t' in (fired :: rest, t'')
  end.

(** What a ticker should answer on exact, unbounded clock values: it fires
    at a reading at least [interval] after the last fire, and measures the
    next interval from there. *)
Fixpoint ideal_fires (interval last : Z) (nows : list Z) : list bool :=
  match nows with
  | [] => []
  | now :: nows' =>
      if interval <=? now - last
      then true :: ideal_fires interval now nows'
      else false :: ideal_fires interval last nows'
  end.

(** Readings that never go back, the first not before [last] and all within
    [bound]. *)
Fixpoint monotone (last bound : Z) (nows : list Z) : Prop :=
  match nows with
  | [] => True
  | now :: nows' => last ≤ now ≤ bound ∧ monotone now bound nows'
  end.

End Tick.

(** * Properties *)

(** ** Machine arithmetic *)

Section U64Facts.

Lemma modulus_eq : U64.modulus = 18446744073709551616.
Proof. reflexivity. Qed.

Lemma max_int_eq : U64.max_int = 9223372036854775807.
Proof. reflexivity. Qed.

Lemma wrap_small z : 0 ≤ z < U64.modulus → U64.wrap z = z.
Proof. intros Hz. unfold U64.wrap. by apply Z.mod_small. Qed.

Lemma wrap_range z : 0 ≤ U64.wrap z < U64.modulus.
Proof. unfold U64.wrap. apply Z.mod_pos_bound. by rewrite modulus_eq. Qed.

Lemma add_0_r a : 0 ≤ a < U64.modulus → U64.add a 0 = a.
Proof. intros Ha. unfold U64.add. by rewrite Z.add_0_r, wrap_small. Qed.

Lemma pow2_pos k : 0 ≤ k → 0 < 2 ^ k.
Proof. intros Hk. by apply Z.pow_pos_nonneg. Qed.

Lemma pow2_le j k : 0 ≤ j ≤ k → 2 ^ j ≤ 2 ^ k.
Proof. intros Hjk. apply Z.pow_le_mono_r; lia. Qed.

Lemma pow2_lt j k : 0 ≤ j < k → 2 ^ j < 2 ^ k.
Proof. intros Hjk. apply Z.pow_lt_mono_r; lia. Qed.

Lemma pow2_succ k : 0 ≤ k → 2 ^ (k + 1) = 2 * 2 ^ k.
Proof. intros Hk. rewrite Z.pow_add_r by lia. lia. Qed.

Lemma pow2_lt_modulus k : 0 ≤ k ≤ 63 → 0 < 2 ^ k < U64.modulus.
Proof.
  intros Hk. split; [by apply pow2_pos; lia|].
  unfold U64.modulus. apply pow2_lt. lia.
Qed.

(** Doubling a power of two below [2^63] stays in range ... *)
Lemma shl_pow2 j : 0 ≤ j < 63 → U64.shl (2 ^ j) 1 = 2 ^ (j + 1).
Proof.
  intros Hj. unfold U64.shl. rewrite Z.shiftl_mul_pow2 by lia.
  rewrite Z.pow_1_r, Z.mul_comm, <- pow2_succ by lia.
  apply wrap_small. pose proof (pow2_lt_modulus (j + 1)). lia.
Qed.

(** ... and doubling [2^63] loses the only bit that is set. *)
Lemma shl_top : U64.shl (2 ^ 63) 1 = 0.
Proof. reflexivity. Qed.

Lemma shl_zero : U64.shl 0 1 = 0.
Proof. reflexivity. Qed.

(** The mask of a power-of-two length selects the position modulo the
    length. *)
Lemma land_mask k x : 0 ≤ k → Z.land x (2 ^ k - 1) = x mod 2 ^ k.
Proof.
  intros Hk. rewrite <- Z.land_ones by done.
  by rewrite Z.ones_equiv, <- Z.sub_1_r.
Qed.

(** Reducing modulo [2^64] first does not change a position modulo a
    power-of-two length. *)
Lemma wrap_mod_pow2 k x : 0 ≤ k ≤ 64 → U64.wrap x mod 2 ^ k = x mod 2 ^ k.
Proof.
  intros Hk. unfold U64.wrap, U64.modulus.
  apply Z.mod_mod_divide.
  exists (2 ^ (64 - k)). rewrite <- Z.pow_add_r by lia. f_equal. lia.
Qed.

End U64Facts.

(** ** The rounding loop *)

Section RoundUp.

(** From [2^j] the loop doubles [d] times and exits at [2^(j+d)], when
    that is the first power of two that reaches the target. *)
Lemma round_up_loop_exits (d : nat) : ∀ (fuel : nat) (j target : Z),
  0 ≤ j → j + Z.of_nat d ≤ 63 →
  (∀ i, j ≤ i < j + Z.of_nat d → 2 ^ i < target) →
  target ≤ 2 ^ (j + Z.of_nat d) →
  (d < fuel)%nat →
  round_up_loop fuel (2 ^ j) target = Some (2 ^ (j + Z.of_nat d)).
Proof.
  induction d as [|d IH]; intros fuel j target Hj Hjd Hlt Hge Hfuel.
  - destruct fuel as [|fuel]; [lia|]. simpl.
    rewrite Z.add_0_r in *.
    by destruct (Z.ltb_spec (2 ^ j) target); [lia|].
  - destruct fuel as [|fuel]; [lia|]. simpl.
    destruct (Z.ltb_spec (2 ^ j) target) as [_|Hle].
    + rewrite shl_pow2 by lia.
      replace (j + Z.of_nat (S d)) with ((j + 1) + Z.of_nat d) by lia.
      apply IH; try lia.
      * intros i Hi. apply Hlt. lia.
      * by replace (j + 1 + Z.of_nat d) with (j + Z.of_nat (S d)) by lia.
    + specialize (Hlt j). lia.
Qed.

(** From a power of two (or from 0, what doubling [2^63] leaves) the loop
    never reaches a target above [2^63]. *)
Lemma round_up_loop_spins (fuel : nat) : ∀ (n target : Z),
  (n = 0 ∨ ∃ j, 0 ≤ j ≤ 63 ∧ n = 2 ^ j) →
  2 ^ 63 < target →
  round_up_loop fuel n target = None.
Proof.
  induction fuel as [|fuel IH]; intros n target Hn Ht; [done|].
  simpl. destruct (Z.ltb_spec n target) as [_|Hle].
  - apply IH; [|done].
    destruct Hn as [->|(j & Hj & ->)]; [by left|].
    destruct (decide (j = 63)) as [->|Hne]; [by left|].
    right. exists (j + 1). split; [lia|]. apply shl_pow2. lia.
  - destruct Hn as [->|(j & Hj & ->)]; [lia|].
    pose proof (pow2_le j 63). lia.
Qed.

(** The loop on a target in [1, 2^63] exits with the specification's
    [next_power_of_two]. *)
Lemma round_up_loop_next_power_of_two (fuel : nat) (target : Z) :
  0 ≤ target ≤ 2 ^ 63 → (64 ≤ fuel)%nat →
  round_up_loop fuel 1 target = Some (next_power_of_two target).
Proof.
  intros Ht Hfuel. unfold next_power_of_two.
  assert (Hk : 0 ≤ Z.log2_up target ≤ 63).
  { split; [apply Z.log2_up_nonneg|].
    destruct (decide (target ≤ 1)) as [Hle|Hgt].
    - rewrite Z.log2_up_eqn0 by lia. lia.
    - apply Z.log2_up_le_pow2; lia. }
  pose proof (round_up_loop_exits (Z.to_nat (Z.log2_up target)) fuel 0 target)
    as Hloop.
  rewrite Z2Nat.id, Z.add_0_l in Hloop by lia.
  apply Hloop; try lia.
  - intros i Hi.
    destruct (decide (target ≤ 1)) as [Hle|Hgt].
    + rewrite Z.log2_up_eqn0 in Hi by lia. lia.
    + pose proof (Z.log2_up_spec target ltac:(lia)) as [Hlo _].
      pose proof (pow2_le i (Z.pred (Z.log2_up target))). lia.
  - destruct (decide (target ≤ 1)) as [Hle|Hgt].
    + rewrite Z.log2_up_eqn0 by lia. simpl. lia.
    + pose proof (Z.log2_up_spec target ltac:(lia)). lia.
Qed.

(** [next_power_of_two c] is a power of two, is at least [c], and no
    smaller power of two is. *)
Lemma next_power_of_two_least (c : Z) :
  (∃ k, 0 ≤ k ∧ next_power_of_two c = 2 ^ k) ∧
  c ≤ next_power_of_two c ∧
  ∀ k, 0 ≤ k → c ≤ 2 ^ k → next_power_of_two c ≤ 2 ^ k.
Proof.
  unfold next_power_of_two. split_and!.
  - exists (Z.log2_up c). split; [apply Z.log2_up_nonneg | done].
  - destruct (decide (c ≤ 1)) as [Hle|Hgt].
    + rewrite Z.log2_up_eqn0 by lia. simpl. lia.
    + pose proof (Z.log2_up_spec c ltac:(lia)). lia.
  - intros k Hk Hc. apply pow2_le. split; [apply Z.log2_up_nonneg|].
    destruct (decide (c ≤ 1)) as [Hle|Hgt].
    + rewrite Z.log2_up_eqn0 by lia. lia.
    + apply Z.log2_up_le_pow2; lia.
Qed.

End RoundUp.

(** ** One call at a time *)

Section Calls.
Import Queue QueueClient.
Context {T : Type} `{GoType T}.
Implicit Types (r : RingBuffer T) (v : T).

Lemma set_pushActive_release r :
  pushActive r = 0 → set_pushActive 0 (set_pushActive 1 r) = r.
Proof. destruct r; simpl; intros ->; reflexivity. Qed.

Lemma set_popActive_release r :
  popActive r = 0 → set_popActive 0 (set_popActive 1 r) = r.
Proof. destruct r; simpl; intros ->; reflexivity. Qed.

(** With its flag clear, [Push] is its body between claim and release. *)
Lemma Push_unguarded v r :
  pushActive r = 0 →
  Push v r =
    (let (res, r') := Push_body v (set_pushActive 1 r) in
     (res, set_pushActive 0 r')).
Proof. intros Hflag. unfold Push. rewrite Hflag. reflexivity. Qed.

Lemma Pop_unguarded r :
  popActive r = 0 →
  Pop r =
    (let (res, r') := Pop_body (set_popActive 1 r) in
     (res, set_popActive 0 r')).
Proof. intros Hflag. unfold Pop. rewrite Hflag. reflexivity. Qed.

Lemma Push_full v r :
  pushActive r = 0 →
  len (buf r) ≤ U64.sub (head r) (tail r) →
  Push v r = (Returned false, r).
Proof.
  intros Hflag Hfull. rewrite Push_unguarded by done.
  unfold Push_body. simpl.
  rewrite Z.geb_leb. destruct (Z.leb_spec (len (buf r)) (U64.sub (head r) (tail r))); [|lia].
  by rewrite set_pushActive_release.
Qed.

Lemma Pop_empty r :
  popActive r = 0 →
  head r ≤ tail r →
  Pop r = (Returned (zero_value, false), r).
Proof.
  intros Hflag Hempty. rewrite Pop_unguarded by done.
  unfold Pop_body. simpl.
  rewrite Z.geb_leb. destruct (Z.leb_spec (head r) (tail r)); [|lia].
  by rewrite set_popActive_release.
Qed.

(** The slot of a cursor, under the invariant. *)
Lemma slot_index k r x :
  wf_at k r → Z.land x (mask r) = x mod 2 ^ k.
Proof. intros Hwf. rewrite (wf_mask _ _ Hwf). apply land_mask, Hwf. Qed.

Lemma slot_in_range k r x :
  wf_at k r → (Z.to_nat (x mod 2 ^ k) < length (buf r))%nat.
Proof.
  intros Hwf. pose proof (wf_len _ _ Hwf) as Hlen. unfold len in Hlen.
  pose proof (Z.mod_pos_bound x (2 ^ k) (pow2_pos k ltac:(apply Hwf))). lia.
Qed.

Lemma Push_ok k v r :
  wf_at k r →
  U64.sub (head r) (tail r) < len (buf r) →
  Push v r = (Returned true, after_push v r).
Proof.
  intros Hwf Hroom. rewrite Push_unguarded by apply Hwf.
  unfold Push_body. simpl.
  rewrite Z.geb_leb. destruct (Z.leb_spec (len (buf r)) (U64.sub (head r) (tail r))); [lia|].
  rewrite (slot_index k) by done.
  pose proof (slot_in_range k r (head r) Hwf) as Hidx.
  pose proof (Z.mod_pos_bound (head r) (2 ^ k) (pow2_pos k ltac:(apply Hwf))).
  destruct (Z.ltb_spec (head r `mod` 2 ^ k) (len (buf r))) as [_|Hge];
    [|unfold len in Hge; lia].
  unfold after_push, set_pushActive. simpl.
  by rewrite (slot_index k).
Qed.

Lemma Pop_ok k r :
  wf_at k r →
  tail r < head r →
  ∃ v, buf r !! Z.to_nat (Z.land (tail r) (mask r)) = Some v ∧
       Pop r = (Returned (v, true), after_pop r).
Proof.
  intros Hwf Hsome.
  pose proof (slot_in_range k r (tail r) Hwf) as Hidx.
  apply lookup_lt_is_Some in Hidx as [v Hv].
  exists v. rewrite (slot_index k) by done. split; [done|].
  rewrite Pop_unguarded by apply Hwf.
  unfold Pop_body. simpl.
  rewrite Z.geb_leb. destruct (Z.leb_spec (head r) (tail r)); [lia|].
  rewrite (slot_index k), Hv by done.
  reflexivity.
Qed.

End Calls.

(** ** The invariant and the logical contents across a call *)

Section Invariant.
Import Queue QueueClient.
Context {T : Type} `{GoType T}.
Implicit Types (r : RingBuffer T) (v : T).

Lemma sub_add_l h t :
  U64.sub h t < U64.modulus - 1 →
  U64.sub (U64.add h 1) t = U64.sub h t + 1.
Proof.
  intros Hc. unfold U64.sub, U64.add, U64.wrap in *.
  rewrite Zminus_mod_idemp_l.
  replace (h + 1 - t) with ((h - t) + 1) by lia.
  rewrite <- Zplus_mod_idemp_l.
  apply Z.mod_small.
  pose proof (Z.mod_pos_bound (h - t) U64.modulus ltac:(done)). lia.
Qed.

Lemma sub_no_wrap h t :
  0 ≤ t ≤ h → h < U64.modulus → U64.sub h t = h - t.
Proof. intros Ht Hh. apply wrap_small. lia. Qed.

(** The head is the tail advanced by the number of occupied slots. *)
Lemma head_from_tail h t :
  0 ≤ h < U64.modulus → U64.add t (U64.sub h t) = h.
Proof.
  intros Hh. unfold U64.add, U64.sub, U64.wrap.
  rewrite Zplus_mod_idemp_r.
  replace (t + (h - t)) with h by lia. by apply Z.mod_small.
Qed.

Lemma pow2k_lt_modulus k : 0 ≤ k ≤ 62 → 2 ^ k < U64.modulus - 1.
Proof.
  intros Hk. pose proof (pow2_le k 62 ltac:(lia)) as Hle.
  rewrite modulus_eq. change (2 ^ 62) with 4611686018427387904 in Hle. lia.
Qed.

Lemma after_push_wf k v r :
  wf_at k r →
  U64.sub (head r) (tail r) < len (buf r) →
  wf_at k (after_push v r).
Proof.
  intros Hwf Hroom. pose proof (pow2k_lt_modulus k ltac:(apply Hwf)).
  pose proof (wf_len _ _ Hwf) as Hlen.
  split; simpl; try apply Hwf; try done.
  - unfold len. rewrite length_insert. apply Hwf.
  - apply wrap_range.
  - rewrite sub_add_l; lia.
Qed.

Lemma after_pop_wf k r :
  wf_at k r →
  tail r < head r →
  wf_at k (after_pop r).
Proof.
  intros Hwf Hsome.
  pose proof (wf_head _ _ Hwf). pose proof (wf_tail _ _ Hwf).
  pose proof (wf_count _ _ Hwf) as Hc.
  rewrite sub_no_wrap in Hc by lia.
  assert (Ht : U64.add (tail r) 1 = tail r + 1) by (apply wrap_small; lia).
  split; simpl; try apply Hwf; try done.
  - rewrite Ht. lia.
  - rewrite Ht, sub_no_wrap; lia.
Qed.

(** Two logical positions less than a buffer length apart use different
    slots. *)
Lemma slots_distinct k t i c :
  0 ≤ k → 0 ≤ i < c → c < 2 ^ k →
  (t + i) mod 2 ^ k ≠ (t + c) mod 2 ^ k.
Proof.
  intros Hk Hi Hc Heq.
  assert (Hdiff : ((t + c) - (t + i)) mod 2 ^ k = 0).
  { rewrite Zminus_mod, Heq, Z.sub_diag. apply Z.mod_0_l.
    pose proof (pow2_pos k Hk). lia. }
  replace (t + c - (t + i)) with (c - i) in Hdiff by lia.
  rewrite Z.mod_small in Hdiff; lia.
Qed.

(** A successful [Push] appends its value to the contents. *)
Lemma contents_after_push k v r :
  wf_at k r →
  U64.sub (head r) (tail r) < len (buf r) →
  contents (after_push v r) = contents r ++ [v].
Proof.
  intros Hwf Hroom. pose proof (pow2k_lt_modulus k ltac:(apply Hwf)).
  pose proof (wf_len _ _ Hwf) as Hlen. pose proof (wf_k _ _ Hwf) as Hk.
  pose proof (wrap_range (head r - tail r)) as Hc0.
  fold (U64.sub (head r) (tail r)) in Hc0.
  unfold contents. simpl. rewrite sub_add_l by lia.
  set (c := U64.sub (head r) (tail r)) in *.
  replace (Z.to_nat (c + 1)) with (S (Z.to_nat c)) by lia.
  rewrite seq_S, map_app. simpl. f_equal.
  - apply map_ext_in. intros i Hi%in_seq.
    unfold slot_at. simpl. rewrite !(slot_index k) by done.
    unfold U64.add. rewrite !wrap_mod_pow2 by lia.
    rewrite list_lookup_insert_ne; [done|].
    rewrite <- (head_from_tail (head r) (tail r)) at 1 by apply Hwf.
    fold c. unfold U64.add. rewrite wrap_mod_pow2 by lia.
    pose proof (slots_distinct k (tail r) (Z.of_nat i) c ltac:(lia) ltac:(lia) ltac:(lia)).
    pose proof (Z.mod_pos_bound (tail r + Z.of_nat i) (2 ^ k) (pow2_pos k ltac:(lia))).
    pose proof (Z.mod_pos_bound (tail r + c) (2 ^ k) (pow2_pos k ltac:(lia))).
    lia.
  - f_equal. unfold slot_at. simpl.
    rewrite Z2Nat.id by lia. subst c. rewrite head_from_tail by apply Hwf.
    rewrite list_lookup_insert_eq; [done|].
    rewrite (slot_index k) by done. by apply (slot_in_range k).
Qed.

(** A successful [Pop] returns the oldest value and removes it. *)
Lemma contents_after_pop k v r :
  wf_at k r →
  tail r < head r →
  buf r !! Z.to_nat (Z.land (tail r) (mask r)) = Some v →
  contents r = v :: contents (after_pop r).
Proof.
  intros Hwf Hsome Hv.
  pose proof (wf_head _ _ Hwf). pose proof (wf_tail _ _ Hwf).
  assert (Ht : U64.add (tail r) 1 = tail r + 1) by (apply wrap_small; lia).
  unfold contents. simpl. rewrite Ht.
  rewrite (sub_no_wrap (head r) (tail r)) by lia.
  rewrite (sub_no_wrap (head r) (tail r + 1)) by lia.
  replace (Z.to_nat (head r - tail r))
    with (S (Z.to_nat (head r - (tail r + 1)))) by lia.
  simpl. f_equal.
  - unfold slot_at. unfold U64.add. rewrite Z.add_0_r, wrap_small by done.
    by rewrite Hv.
  - rewrite <- seq_shift, map_map. apply map_ext. intros i.
    unfold slot_at. simpl. rewrite Ht. unfold U64.add.
    do 5 f_equal. lia.
Qed.

Lemma contents_length r :
  0 ≤ U64.sub (head r) (tail r) →
  Z.of_nat (length (contents r)) = U64.sub (head r) (tail r).
Proof.
  intros Hc. unfold contents. rewrite length_map, length_seq. lia.
Qed.

End Invariant.

(** ** Construction *)

Section Construction.
Import Queue QueueClient.
Context {T : Type} `{GoType T}.
Implicit Types (r : RingBuffer T) (v : T).

(** Whenever the loop exits, it exits with a power of two. *)
Lemma round_up_loop_pow2 (fuel : nat) : ∀ (j target n : Z),
  0 ≤ j ≤ 63 →
  round_up_loop fuel (2 ^ j) target = Some n →
  ∃ k, j ≤ k ≤ 63 ∧ n = 2 ^ k.
Proof.
  induction fuel as [|fuel IH]; intros j target n Hj Hrun; [done|].
  simpl in Hrun. destruct (Z.ltb_spec (2 ^ j) target) as [Hlt|Hge].
  - destruct (decide (j = 63)) as [->|Hne].
    + rewrite shl_top, round_up_loop_spins in Hrun; [done|by left|done].
    + rewrite shl_pow2 in Hrun by lia.
      apply IH in Hrun as (k & Hk & ->); [|lia].
      exists k. split; [lia|done].
  - exists j. split; [lia|congruence].
Qed.

Lemma make_slice_returned (n : Z) (b : list T) :
  make_slice n = Returned b →
  n ≤ U64.max_int ∧ b = replicate (Z.to_nat n) zero_value.
Proof.
  unfold make_slice. destruct (Z.leb_spec n U64.max_int); [|done].
  intros [= <-]. done.
Qed.

(** A constructed buffer is empty, holds zero values, and satisfies the
    invariant. *)
Lemma NewRingBuffer_wf (fuel : nat) (size : Z) r0 :
  NewRingBuffer fuel size = Some (Returned r0) →
  ∃ k, wf_at k r0 ∧ head r0 = 0 ∧ tail r0 = 0 ∧
       buf r0 = replicate (Z.to_nat (2 ^ k)) zero_value.
Proof.
  unfold NewRingBuffer.
  destruct (round_up_loop fuel 1 (U64.of_int size)) as [n|] eqn:Hloop; [|done].
  destruct (make_slice n) as [b|] eqn:Hmake; [|done].
  intros [= <-].
  apply (round_up_loop_pow2 fuel 0) in Hloop as (k & Hk & ->); [|lia].
  apply make_slice_returned in Hmake as [Hfit ->].
  assert (Hk62 : k ≤ 62).
  { destruct (decide (k ≤ 62)) as [|Hgt]; [done|].
    assert (k = 63) as -> by lia. by rewrite max_int_eq in Hfit. }
  pose proof (pow2_pos k ltac:(lia)). pose proof (pow2k_lt_modulus k ltac:(lia)).
  exists k. split_and!; try done.
  split; simpl; try done; try lia.
  - unfold len. rewrite length_replicate. lia.
  - apply wrap_small. lia.
  - change (U64.sub 0 0) with 0. lia.
Qed.

Lemma NewRingBuffer_Cap (fuel : nat) (size : Z) :
  1 ≤ size ≤ 2 ^ 62 → (64 ≤ fuel)%nat →
  ∃ r0, NewRingBuffer fuel size = Some (Returned r0) ∧
        Cap r0 = next_power_of_two size.
Proof.
  intros Hsize Hfuel. unfold NewRingBuffer.
  assert (Hu : U64.of_int size = size).
  { apply wrap_small. rewrite modulus_eq. lia. }
  rewrite Hu, round_up_loop_next_power_of_two by lia.
  destruct (next_power_of_two_least size) as ((k & Hk & Hpow) & _ & Hleast).
  specialize (Hleast 62 ltac:(lia) ltac:(lia)).
  pose proof (pow2_pos k Hk).
  unfold make_slice.
  destruct (Z.leb_spec (next_power_of_two size) U64.max_int) as [_|Hbig];
    [|rewrite max_int_eq in Hbig; lia].
  eexists. split; [done|].
  unfold Cap, len. simpl. rewrite length_replicate. lia.
Qed.

End Construction.

(** ** Runs of a sequential client *)

Section Runs.
Import Queue QueueClient.
Context {T : Type} `{GoType T}.
Implicit Types (r : RingBuffer T) (v : T) (evs : list (event T)).

Lemma pushed_cons (e : event T) evs :
  pushed (e :: evs) = pushed [e] ++ pushed evs.
Proof. by destruct e as [v [[|]|]|[[v [|]]|]]. Qed.

Lemma popped_cons (e : event T) evs :
  popped (e :: evs) = popped [e] ++ popped evs.
Proof. by destruct e as [v [[|]|]|[[v [|]]|]]. Qed.

Lemma pushed_app evs1 evs2 :
  pushed (evs1 ++ evs2) = pushed evs1 ++ pushed evs2.
Proof.
  induction evs1 as [|e evs1 IH]; [done|].
  rewrite <- app_comm_cons, pushed_cons, IH, (pushed_cons e evs1).
  by rewrite app_assoc.
Qed.

Lemma popped_app evs1 evs2 :
  popped (evs1 ++ evs2) = popped evs1 ++ popped evs2.
Proof.
  induction evs1 as [|e evs1 IH]; [done|].
  rewrite <- app_comm_cons, popped_cons, IH, (popped_cons e evs1).
  by rewrite app_assoc.
Qed.

(** What one call does to a buffer that satisfies the invariant. *)
Lemma call_invariant k (o : op T) r :
  wf_at k r →
  ∃ e r', call Push Pop o r = (e, r') ∧
    ev_returned e = true ∧
    wf_at k r' ∧
    contents r ++ pushed [e] = popped [e] ++ contents r' ∧
    head r' = U64.add (head r) (len (pushed [e])) ∧
    tail r' = U64.add (tail r) (len (popped [e])).
Proof.
  intros Hwf.
  pose proof (wf_head _ _ Hwf) as Hh. pose proof (wf_tail _ _ Hwf) as Ht.
  destruct o as [v|]; simpl.
  - destruct (Z.lt_ge_cases (U64.sub (head r) (tail r)) (len (buf r)))
      as [Hroom|Hfull].
    + rewrite (Push_ok k) by done. eexists _, _. split; [done|].
      split_and!; simpl; try done.
      * by apply after_push_wf.
      * by rewrite (contents_after_push k).
      * by rewrite add_0_r.
    + rewrite Push_full by (done || apply Hwf). eexists _, _. split; [done|].
      split_and!; simpl; try done.
      * by rewrite app_nil_r.
      * by rewrite add_0_r.
      * by rewrite add_0_r.
  - destruct (Z.lt_ge_cases (tail r) (head r)) as [Hsome|Hempty].
    + destruct (Pop_ok k r Hwf Hsome) as (v & Hv & ->).
      eexists _, _. split; [done|].
      split_and!; simpl; try done.
      * by apply after_pop_wf.
      * by rewrite app_nil_r, (contents_after_pop k v).
      * by rewrite add_0_r.
    + rewrite Pop_empty by (done || apply Hwf). eexists _, _. split; [done|].
      split_and!; simpl; try done.
      * by rewrite app_nil_r.
      * by rewrite add_0_r.
      * by rewrite add_0_r.
Qed.

Lemma add_add a b c : U64.add (U64.add a b) c = U64.add a (b + c).
Proof.
  unfold U64.add, U64.wrap. rewrite Zplus_mod_idemp_l. f_equal. lia.
Qed.

(** The invariant of a whole run: no call panics, the representation
    invariant is kept, what was pushed is what was popped followed by what
    is still stored, and each cursor counts its successful calls. *)
Lemma run_invariant (ops : list (op T)) : ∀ k r evs r',
  wf_at k r →
  run ops r = (evs, r') →
  forallb ev_returned evs = true ∧
  wf_at k r' ∧
  contents r ++ pushed evs = popped evs ++ contents r' ∧
  head r' = U64.add (head r) (len (pushed evs)) ∧
  tail r' = U64.add (tail r) (len (popped evs)).
Proof.
  induction ops as [|o ops IH]; intros k r evs r' Hwf Hrun.
  - injection Hrun as <- <-. simpl. split_and!; try done.
    + by rewrite app_nil_r.
    + rewrite add_0_r; [done|apply Hwf].
    + rewrite add_0_r; [done|apply Hwf].
  - unfold run in Hrun. cbn [run_with] in Hrun.
    destruct (call_invariant k o r Hwf)
      as (e & r1 & Hcall & Hret & Hwf1 & Hcont & Hhead & Htail).
    rewrite Hcall, Hret in Hrun.
    destruct (run_with Push Pop ops r1) as [evs1 r2] eqn:Hrest.
    injection Hrun as <- <-.
    destruct (IH k r1 evs1 r2 Hwf1 Hrest)
      as (Hall & Hwf2 & Hcont2 & Hhead2 & Htail2).
    split_and!; try done.
    + simpl. by rewrite Hret.
    + rewrite (pushed_cons e evs1), (popped_cons e evs1), app_assoc, Hcont.
      by rewrite <- !app_assoc, Hcont2.
    + rewrite Hhead2, Hhead, add_add, (pushed_cons e evs1). f_equal.
      unfold len. rewrite length_app. lia.
    + rewrite Htail2, Htail, add_add, (popped_cons e evs1). f_equal.
      unfold len. rewrite length_app. lia.
Qed.

(** Runs compose. *)
Lemma run_app (ops1 ops2 : list (op T)) : ∀ r evs1 r1 evs2 r2,
  run ops1 r = (evs1, r1) →
  forallb ev_returned evs1 = true →
  run ops2 r1 = (evs2, r2) →
  run (ops1 ++ ops2) r = (evs1 ++ evs2, r2).
Proof.
  unfold run.
  induction ops1 as [|o ops1 IH]; intros r evs1 r1 evs2 r2 Hrun1 Hall Hrun2.
  - by injection Hrun1 as <- <-.
  - cbn [run_with app] in *. destruct (call Push Pop o r) as [e r'].
    destruct (ev_returned e) eqn:Hret.
    + destruct (run_with Push Pop ops1 r') as [evs r''] eqn:Hrest.
      injection Hrun1 as <- <-. simpl in Hall. rewrite Hret in Hall.
      by rewrite (IH _ _ _ _ _ Hrest Hall Hrun2).
    + injection Hrun1 as <- <-. simpl in Hall. by rewrite Hret in Hall.
Qed.

Lemma reachable_fresh (fuel : nat) (size : Z) r0 :
  NewRingBuffer fuel size = Some (Returned r0) → reachable r0.
Proof. intros Hnew. by exists fuel, size, r0, [], []. Qed.

Lemma reachable_wf r : reachable r → ∃ k, wf_at k r.
Proof.
  intros (fuel & size & r0 & ops & evs & Hnew & Hrun).
  apply NewRingBuffer_wf in Hnew as (k & Hwf & _).
  exists k. by apply (run_invariant ops k r0 evs r).
Qed.

Lemma reachable_call (o : op T) r e r' :
  reachable r → call Push Pop o r = (e, r') → reachable r'.
Proof.
  intros (fuel & size & r0 & ops & evs & Hnew & Hrun) Hcall.
  exists fuel, size, r0, (ops ++ [o]), (evs ++ [e]). split; [done|].
  destruct (NewRingBuffer_wf _ _ _ Hnew) as (k & Hwf & _).
  destruct (run_invariant ops k r0 evs r Hwf Hrun) as (Hall & Hwfr & _).
  apply (run_app _ _ _ _ r); [done..|].
  unfold run. cbn [run_with]. rewrite Hcall.
  destruct (call_invariant k o r Hwfr) as (e' & r'' & Hcall' & Hret & _).
  rewrite Hcall in Hcall'. injection Hcall' as <- <-. by rewrite Hret.
Qed.

Lemma reachable_Push v r res r' :
  reachable r → Push v r = (res, r') → reachable r'.
Proof.
  intros Hr Hpush. apply (reachable_call (OpPush v) r (EvPush v res) r' Hr).
  simpl. by rewrite Hpush.
Qed.

Lemma reachable_Pop r res r' :
  reachable r → Pop r = (res, r') → reachable r'.
Proof.
  intros Hr Hpop. apply (reachable_call OpPop r (EvPop res) r' Hr).
  simpl. by rewrite Hpop.
Qed.

End Runs.

(** ** Filling a buffer *)

Section Filling.
Import Queue QueueClient.
Context {T : Type} `{GoType T}.
Implicit Types (r : RingBuffer T) (v : T).

Lemma Len_small r :
  0 ≤ U64.sub (head r) (tail r) ≤ U64.max_int →
  Len r = U64.sub (head r) (tail r).
Proof.
  intros Hc. unfold Len, U64.to_int.
  by destruct (Z.leb_spec (U64.sub (head r) (tail r)) U64.max_int); [|lia].
Qed.

Lemma wf_Len k r :
  wf_at k r → Len r = U64.sub (head r) (tail r) ∧ 0 ≤ Len r ≤ Cap r.
Proof.
  intros Hwf. pose proof (wf_count _ _ Hwf) as Hc.
  pose proof (wrap_range (head r - tail r)) as Hc0.
  fold (U64.sub (head r) (tail r)) in Hc0.
  pose proof (pow2k_lt_modulus k ltac:(apply Hwf)) as Hk.
  pose proof (pow2_le k 62 ltac:(pose proof (wf_k _ _ Hwf); lia)) as Hle.
  change (2 ^ 62) with 4611686018427387904 in Hle.
  rewrite Len_small by (rewrite max_int_eq; lia).
  unfold Cap. rewrite (wf_len _ _ Hwf). lia.
Qed.

(** While there is room, every [Push] of a run of pushes succeeds. *)
Lemma pushes_succeed (vs : list T) : ∀ k r,
  wf_at k r →
  U64.sub (head r) (tail r) + len vs ≤ 2 ^ k →
  ∃ r', run (map OpPush vs) r = (map (λ v, EvPush v (Returned true)) vs, r') ∧
        wf_at k r' ∧ tail r' = tail r ∧
        U64.sub (head r') (tail r') = U64.sub (head r) (tail r) + len vs.
Proof.
  induction vs as [|v vs IH]; intros k r Hwf Hroom.
  - exists r. unfold len. simpl. split_and!; try done. lia.
  - unfold len in *. simpl length in Hroom.
    pose proof (wf_len _ _ Hwf) as Hlen.
    pose proof (pow2k_lt_modulus k ltac:(apply Hwf)) as Hk.
    assert (Hlt : U64.sub (head r) (tail r) < len (buf r)) by lia.
    destruct (IH k (after_push v r)) as (r' & Hrun & Hwf' & Htail & Hcount).
    { by apply after_push_wf. }
    { simpl. rewrite sub_add_l by lia. lia. }
    exists r'. unfold run in *. cbn [map run_with call].
    rewrite (Push_ok k) by done. simpl. rewrite Hrun.
    split_and!; try done.
    rewrite Hcount. simpl. rewrite sub_add_l by lia. lia.
Qed.

(** On a full buffer, every [Push] of a run of pushes fails and changes
    nothing. *)
Lemma pushes_fail (ws : list T) r :
  pushActive r = 0 →
  len (buf r) ≤ U64.sub (head r) (tail r) →
  run (map OpPush ws) r = (map (λ v, EvPush v (Returned false)) ws, r).
Proof.
  intros Hflag Hfull. unfold run.
  induction ws as [|w ws IH]; [done|].
  cbn [map run_with call]. rewrite Push_full by done. simpl. by rewrite IH.
Qed.

End Filling.

(** ** The one-slot buffer whose cursors reach the end of [uint64] *)

Section Wrap.
Import Queue QueueClient.
Context {T : Type} `{GoType T}.
Implicit Types (r : RingBuffer T) (v : T).

Lemma one_slot_wf (x : T) (n : Z) :
  0 ≤ n < U64.modulus → wf_at 0 (one_slot x n).
Proof.
  intros Hn. split; simpl; try done.
  unfold U64.sub. by rewrite Z.sub_diag.
Qed.

(** One [Push] and one [Pop] move both cursors of the empty one-slot
    buffer up by one. *)
Lemma one_slot_cycle (x : T) (n : Z) :
  0 ≤ n < U64.modulus - 1 →
  ∃ r1, Push x (one_slot x n) = (Returned true, r1) ∧
        Pop r1 = (Returned (x, true), one_slot x (n + 1)).
Proof.
  intros Hn. pose proof (one_slot_wf x n ltac:(lia)) as Hwf.
  assert (Hadd : U64.add n 1 = n + 1) by (apply wrap_small; lia).
  assert (Hpush : after_push x (one_slot x n) =
                  {| buf := [x]; mask := 0; head := n + 1; tail := n;
                     pushActive := 0; popActive := 0 |}).
  { unfold after_push. simpl. by rewrite Z.land_0_r, Hadd. }
  exists (after_push x (one_slot x n)). split.
  - apply (Push_ok 0); [done|]. simpl.
    unfold U64.sub. by rewrite Z.sub_diag.
  - assert (Hwf1 : wf_at 0 (after_push x (one_slot x n))).
    { apply after_push_wf; [done|]. simpl.
      unfold U64.sub. by rewrite Z.sub_diag. }
    destruct (Pop_ok 0 _ Hwf1) as (v & Hv & ->).
    { rewrite Hpush. simpl. lia. }
    rewrite Hpush in *. simpl in Hv. rewrite Z.land_0_r in Hv.
    injection Hv as <-. unfold after_pop. simpl. by rewrite Hadd.
Qed.

(** Every cursor value is reached: [n] pushes, each followed by a pop. *)
Lemma one_slot_reachable (x : T) (n : Z) :
  1 ≤ n → n < U64.modulus → reachable (one_slot x n).
Proof.
  intros Hn. revert n Hn.
  apply (Z.right_induction (λ n, n < U64.modulus → reachable (one_slot x n))).
  { solve_proper. }
  - intros _.
    assert (Hnew : reachable (one_slot (zero_value : T) 0)).
    { by apply (reachable_fresh 1 1). }
    destruct (one_slot_cycle x 0 ltac:(done)) as (r1 & Hpush & Hpop).
    assert (Hpush0 : Push x (one_slot zero_value 0) = (Returned true, r1)).
    { rewrite <- Hpush. reflexivity. }
    eapply reachable_Pop; [|exact Hpop].
    eapply reachable_Push; [exact Hnew|exact Hpush0].
  - intros n Hn IH Hlt. rewrite <- Z.add_1_r in *.
    destruct (one_slot_cycle x n ltac:(lia)) as (r1 & Hpush & Hpop).
    eapply reachable_Pop; [|exact Hpop].
    eapply reachable_Push; [|exact Hpush]. apply IH. lia.
Qed.

(** After [2^64 - 1] such rounds, one more [Push] wraps the head around. *)
Lemma one_slot_wrapped_reachable (x : T) :
  Push x (one_slot x (U64.modulus - 1)) = (Returned true, one_slot_wrapped x) ∧
  reachable (one_slot_wrapped x).
Proof.
  assert (Hpush : Push x (one_slot x (U64.modulus - 1))
                  = (Returned true, one_slot_wrapped x)) by reflexivity.
  split; [done|].
  eapply reachable_Push; [|exact Hpush].
  by apply one_slot_reachable.
Qed.

End Wrap.

(** ** The guarded and the unguarded ring, side by side *)

Section Simulation.
Import Queue.

Lemma construction_agrees (fuel : nat) (size : Z) :
  match NewRingBuffer fuel size, Combined.newSPSCRing fuel size with
  | Some (Returned r0), Some (Returned s0) => Combined.in_step r0 s0
  | Some (Panicked m), Some (Panicked m') => m = m'
  | None, None => True
  | _, _ => False
  end.
Proof.
  unfold NewRingBuffer, Combined.newSPSCRing.
  destruct (round_up_loop fuel 1 (U64.of_int size)) as [n|]; [|done].
  destruct (make_slice n) as [b|msg]; [|done].
  by repeat split.
Qed.

Lemma call_agrees (o : op Z) r s :
  Combined.in_step r s →
  ∃ e r' s',
    call Push Pop o r = (e, r') ∧
    call Combined.Push Combined.Pop o s = (e, s') ∧
    Combined.in_step r' s'.
Proof.
  intros ((Hbuf & Hmask & Hhead & Htail) & Hpush & Hpop).
  destruct r as [b m h t pa qa], s as [b' m' h' t'].
  simpl in *. subst b' m' h' t' pa qa.
  destruct o as [v|]; simpl.
  - unfold Push, Push_body, Combined.Push. simpl.
    destruct (U64.sub h t >=? len b).
    + eexists _, _, _. by repeat split.
    + destruct (Z.land h m <? len b); eexists _, _, _; by repeat split.
  - unfold Pop, Pop_body, Combined.Pop. simpl.
    destruct (t >=? h).
    + eexists _, _, _. by repeat split.
    + destruct (b !! Z.to_nat (Z.land t m)); eexists _, _, _; by repeat split.
Qed.

Lemma run_agrees (ops : list (op Z)) : ∀ r s,
  Combined.in_step r s →
  ∃ evs r' s',
    QueueClient.run ops r = (evs, r') ∧
    Combined.run ops s = (evs, s') ∧
    Combined.in_step r' s'.
Proof.
  unfold QueueClient.run, Combined.run.
  induction ops as [|o ops IH]; intros r s Hrs.
  - by exists [], r, s.
  - destruct (call_agrees o r s Hrs) as (e & r1 & s1 & Hr & Hs & Hrs1).
    cbn [run_with]. rewrite Hr, Hs.
    destruct (ev_returned e).
    + destruct (IH r1 s1 Hrs1) as (evs & r2 & s2 & -> & -> & Hrs2).
      by exists (e :: evs), r2, s2.
    + by exists [e], r1, s1.
Qed.

End Simulation.

(** ** More fuel never changes the exit of the loop *)

Section Fuel.

Lemma round_up_loop_more_fuel (fuel : nat) : ∀ (fuel' : nat) (n target m : Z),
  round_up_loop fuel n target = Some m →
  (fuel ≤ fuel')%nat →
  round_up_loop fuel' n target = Some m.
Proof.
  induction fuel as [|fuel IH]; intros fuel' n target m Hrun Hle; [done|].
  destruct fuel' as [|fuel']; [lia|]. simpl in *.
  destruct (n <? target); [|done]. apply (IH fuel'); [done|lia].
Qed.

(** A target in [(2^62, 2^63]] makes the loop exit with [2^63], which no
    [int] holds. *)
Lemma round_up_loop_too_big (fuel : nat) (target n : Z) :
  2 ^ 62 < target ≤ 2 ^ 63 →
  round_up_loop fuel 1 target = Some n → n = 2 ^ 63.
Proof.
  intros Ht Hrun.
  apply (round_up_loop_more_fuel fuel (fuel + 64)) in Hrun; [|lia].
  rewrite round_up_loop_next_power_of_two in Hrun by lia.
  injection Hrun as <-. unfold next_power_of_two. f_equal.
  apply Z.le_antisymm.
  - apply Z.log2_up_le_pow2; lia.
  - destruct (Z.le_gt_cases 63 (Z.log2_up target)) as [|Hlt]; [done|].
    pose proof (Z.log2_up_spec target ltac:(lia)) as [_ Hup].
    pose proof (pow2_le (Z.log2_up target) 62
                  ltac:(pose proof (Z.log2_up_nonneg target); lia)).
    lia.
Qed.

End Fuel.

(** * The claims of the specification *)

Section Claims.
Import Queue QueueClient.
Context {T : Type} `{GoType T}.
Implicit Types (r : RingBuffer T) (v : T).

(** C1 (FIFO order).  After any sequence of [Push] and [Pop] calls on a
    freshly constructed buffer, the values of the pushes that returned
    [true] are, in order, the values returned by the successful pops
    followed by the values still stored between [tail] and [head]: nothing
    is reordered, duplicated or lost.  The stored values are as many as
    [Len] reports, and a [Pop] that succeeds in the state reached returns
    the slot [buf[tail & mask]], which is the oldest value not yet
    popped. *)
Theorem fifo_order (fuel : nat) (size : Z) r0 (ops : list (op T)) evs r :
  NewRingBuffer fuel size = Some (Returned r0) →
  run ops r0 = (evs, r) →
  pushed evs = popped evs ++ contents r ∧
  Z.of_nat (length (contents r)) = Len r ∧
  ∀ v r', Pop r = (Returned (v, true), r') →
    buf r !! Z.to_nat (Z.land (tail r) (mask r)) = Some v ∧
    contents r = v :: contents r'.
Proof.
  intros Hnew Hrun.
  destruct (NewRingBuffer_wf _ _ _ Hnew) as (k & Hwf0 & Hh0 & Ht0 & _).
  destruct (run_invariant ops k r0 evs r Hwf0 Hrun) as (_ & Hwf & Hcont & _).
  assert (Hempty : contents r0 = []).
  { unfold contents. by rewrite Hh0, Ht0. }
  rewrite Hempty in Hcont. simpl in Hcont.
  split_and!; [done| |].
  - destruct (wf_Len k r Hwf) as [-> _].
    apply contents_length.
    pose proof (wrap_range (head r - tail r)) as Hc. apply Hc.
  - intros v r' Hpop.
    destruct (Z.lt_ge_cases (tail r) (head r)) as [Hsome|Hnone].
    + destruct (Pop_ok k r Hwf Hsome) as (v' & Hv & Hpop').
      rewrite Hpop' in Hpop. injection Hpop as <- <-.
      split; [done|]. by apply (contents_after_pop k).
    + rewrite Pop_empty in Hpop by (done || apply Hwf). done.
Qed.

(** C2 (capacity bound).  On a buffer constructed for a requested capacity
    [c >= 1], [Cap()] pushes in a row all return [true]; from then on every
    further [Push] returns [false] and changes nothing, however often it is
    repeated; a [Pop] then succeeds, and after it the next [Push] returns
    [true] again. *)
Theorem capacity_bound (fuel : nat) (c : Z) r0 (vs : list T) :
  1 ≤ c →
  NewRingBuffer fuel c = Some (Returned r0) →
  len vs = Cap r0 →
  ∃ r_full,
    run (map OpPush vs) r0
      = (map (λ v, EvPush v (Returned true)) vs, r_full) ∧
    (∀ ws : list T,
       run (map OpPush ws) r_full
         = (map (λ v, EvPush v (Returned false)) ws, r_full)) ∧
    ∃ x r1, Pop r_full = (Returned (x, true), r1) ∧
            ∀ w, ∃ r2, Push w r1 = (Returned true, r2).
Proof.
  intros _ Hnew Hvs.
  destruct (NewRingBuffer_wf _ _ _ Hnew) as (k & Hwf0 & Hh0 & Ht0 & _).
  pose proof (wf_len _ _ Hwf0) as Hlen0. unfold Cap in Hvs.
  assert (Hsub0 : U64.sub (head r0) (tail r0) = 0) by by rewrite Hh0, Ht0.
  destruct (pushes_succeed vs k r0 Hwf0 ltac:(lia))
    as (r_full & Hrun & Hwf & Htail & Hcount).
  pose proof (wf_len _ _ Hwf) as Hlen.
  pose proof (wf_head _ _ Hwf) as Hhead.
  pose proof (pow2_pos k ltac:(apply Hwf)) as Hpos.
  pose proof (pow2k_lt_modulus k ltac:(apply Hwf)) as Hk.
  rewrite Hsub0, Z.add_0_l, Hvs, Hlen0 in Hcount.
  exists r_full. split_and!; [done| |].
  - intros ws. apply pushes_fail; [apply Hwf|lia].
  - assert (Hsome : tail r_full < head r_full).
    { rewrite Htail, Ht0 in *. unfold U64.sub in Hcount.
      rewrite Z.sub_0_r, wrap_small in Hcount by done. lia. }
    destruct (Pop_ok k r_full Hwf Hsome) as (x & _ & Hpop).
    exists x, (after_pop r_full). split; [done|].
    intros w. exists (after_push w (after_pop r_full)).
    apply (Push_ok k); [by apply after_pop_wf|].
    simpl. rewrite Hlen.
    rewrite Htail, Ht0 in *. unfold U64.sub in Hcount.
    rewrite Z.sub_0_r, wrap_small in Hcount by done.
    change (U64.add 0 1) with 1. rewrite sub_no_wrap; lia.
Qed.

(** C3 (push on a full buffer).  In every state whose occupied count
    [head - tail] (the unsigned difference [Push] computes; the plain
    difference whenever [tail <= head]) is at least [len(buf)], a [Push]
    entered with its claim flag clear returns [false] and leaves the whole
    buffer as it was: [head], [tail] and every slot are unchanged, and the
    push claim flag is clear again on return. *)
Theorem push_full_is_noop v r :
  pushActive r = 0 →
  len (buf r) ≤ U64.sub (head r) (tail r) →
  ∃ r', Push v r = (Returned false, r') ∧
        head r' = head r ∧ tail r' = tail r ∧ buf r' = buf r ∧
        pushActive r' = 0 ∧ r' = r.
Proof.
  intros Hflag Hfull. exists r. by rewrite Push_full.
Qed.

(** C4 (pop on an empty buffer).  In every state with [tail >= head], a
    [Pop] entered with its claim flag clear returns the zero value of [T]
    with [false] and leaves the whole buffer as it was, the pop claim flag
    clear again on return; a freshly constructed buffer is such a state. *)
Theorem pop_empty_is_noop :
  (∀ r, popActive r = 0 → head r ≤ tail r →
     ∃ r', Pop r = (Returned (zero_value, false), r') ∧
           head r' = head r ∧ tail r' = tail r ∧ buf r' = buf r ∧
           popActive r' = 0 ∧ r' = r) ∧
  (∀ (fuel : nat) (size : Z) r0,
     NewRingBuffer fuel size = Some (Returned r0) →
     Pop r0 = (Returned (zero_value, false), r0)).
Proof.
  split.
  - intros r Hflag Hempty. exists r. by rewrite Pop_empty.
  - intros fuel size r0 Hnew.
    destruct (NewRingBuffer_wf _ _ _ Hnew) as (k & Hwf0 & Hh0 & Ht0 & _).
    apply Pop_empty; [apply Hwf0|lia].
Qed.


(** C6 (cursor invariants), as amended.  After any sequence of [Push] and
    [Pop] calls on a freshly constructed buffer, the occupied slot count
    [head - tail], taken as the unsigned difference that [Push] and [Len]
    compute, lies in [[0, Cap()]], and so does [Len()]; and as long as
    fewer than [2^64] pushes have succeeded, [tail <= head] holds and the
    count is the plain difference. *)
Theorem cursor_invariants (fuel : nat) (size : Z) r0 (ops : list (op T)) evs r :
  NewRingBuffer fuel size = Some (Returned r0) →
  run ops r0 = (evs, r) →
  0 ≤ U64.sub (head r) (tail r) ≤ Cap r ∧
  0 ≤ Len r ≤ Cap r ∧
  (len (pushed evs) < U64.modulus →
     tail r ≤ head r ∧ 0 ≤ head r - tail r ≤ Cap r).
Proof.
  intros Hnew Hrun.
  destruct (NewRingBuffer_wf _ _ _ Hnew) as (k & Hwf0 & Hh0 & Ht0 & _).
  destruct (run_invariant ops k r0 evs r Hwf0 Hrun)
    as (_ & Hwf & Hcont & Hhead & Htail).
  destruct (wf_Len k r Hwf) as [HLen Hrange].
  assert (Hempty : contents r0 = []).
  { unfold contents. by rewrite Hh0, Ht0. }
  rewrite Hempty in Hcont. simpl in Hcont.
  split_and!; [lia..| |lia|].
  - pose proof (wf_len _ _ Hwf) as Hlen. unfold Cap. lia.
  - intros Hfew.
    assert (Hlens : len (pushed evs) = len (popped evs) + Len r).
    { unfold len. rewrite Hcont, length_app, HLen.
      rewrite <- contents_length by lia. lia. }
    unfold len in *. rewrite Hh0 in Hhead. rewrite Ht0 in Htail.
    unfold U64.add in *. rewrite Z.add_0_l, wrap_small in Hhead, Htail by lia.
    lia.
Qed.

(** C7 (round trip), as amended.  In every reachable state that is empty
    ([Len() == 0]) and whose head is below the last [uint64], [Push(x)]
    returns [true], the [Pop] that follows returns [x], and [Len()] is 0
    afterwards. *)
Theorem round_trip_on_empty (x : T) r :
  reachable r →
  Len r = 0 →
  head r < U64.modulus - 1 →
  ∃ r1 r2, Push x r = (Returned true, r1) ∧
           Pop r1 = (Returned (x, true), r2) ∧
           Len r2 = 0.
Proof.
  intros Hreach HLen Hhead.
  destruct (reachable_wf r Hreach) as (k & Hwf).
  destruct (wf_Len k r Hwf) as [Hcount _]. rewrite HLen in Hcount.
  pose proof (wf_head _ _ Hwf) as Hh. pose proof (wf_tail _ _ Hwf) as Ht.
  pose proof (wf_len _ _ Hwf) as Hlen.
  pose proof (pow2_pos k ltac:(apply Hwf)) as Hpos.
  assert (Heq : tail r = head r).
  { rewrite <- (head_from_tail (head r) (tail r)), <- Hcount by done.
    by rewrite add_0_r. }
  assert (Hadd : U64.add (head r) 1 = head r + 1) by (apply wrap_small; lia).
  assert (Hroom : U64.sub (head r) (tail r) < len (buf r)) by lia.
  pose proof (after_push_wf k x r Hwf Hroom) as Hwf1.
  exists (after_push x r), (after_pop (after_push x r)).
  split; [by apply (Push_ok k)|].
  destruct (Pop_ok k (after_push x r) Hwf1) as (v & Hv & Hpop).
  { simpl. lia. }
  simpl in Hv. rewrite Heq, list_lookup_insert_eq in Hv.
  - injection Hv as <-. split; [done|].
    unfold Len. simpl. rewrite Heq, Hadd.
    unfold U64.sub. by rewrite Z.sub_diag.
  - rewrite (slot_index k) by done. by apply (slot_in_range k).
Qed.

(** C8 (the guard under correct use).  A [Push] entered with
    [pushActive = 0] does not take the guard's panic branch and returns
    with [pushActive = 0], whichever path it takes; likewise [Pop] with
    [popActive].  In a sequential run on a freshly constructed buffer no
    call panics at all, and both flags are 0 after every call, hence at
    the start of the next. *)
Theorem guard_never_fires :
  (∀ v r, pushActive r = 0 →
     fst (Push v r) ≠ Panicked push_panic ∧ pushActive (snd (Push v r)) = 0) ∧
  (∀ r, popActive r = 0 →
     fst (Pop r) ≠ Panicked pop_panic ∧ popActive (snd (Pop r)) = 0) ∧
  (∀ (fuel : nat) (size : Z) r0 (ops : list (op T)) evs r,
     NewRingBuffer fuel size = Some (Returned r0) →
     run ops r0 = (evs, r) →
     forallb ev_returned evs = true ∧ pushActive r = 0 ∧ popActive r = 0).
Proof.
  split_and!.
  - intros v r Hflag. rewrite Push_unguarded by done.
    unfold Push_body. simpl.
    destruct (U64.sub (head r) (tail r) >=? len (buf r)); [done|].
    by destruct (Z.land (head r) (mask r) <? len (buf r)).
  - intros r Hflag. rewrite Pop_unguarded by done.
    unfold Pop_body. simpl.
    destruct (tail r >=? head r); [done|].
    by destruct (buf r !! Z.to_nat (Z.land (tail r) (mask r))).
  - intros fuel size r0 ops evs r Hnew Hrun.
    destruct (NewRingBuffer_wf _ _ _ Hnew) as (k & Hwf0 & _).
    destruct (run_invariant ops k r0 evs r Hwf0 Hrun) as (Hall & Hwf & _).
    split_and!; [done|apply Hwf..].
Qed.

End Claims.

(** C9 (termination of the constructor's loop), as amended.  For an [int]
    [size], the rounding loop of [NewRingBuffer] exits, with
    [next_power_of_two(size)], whenever [size >= 0]; and for every negative
    [size] other than the least [int], [uint64(size)] is above [2^63], the
    largest power of two a [uint64] holds, and the loop never exits, whatever
    the fuel. *)
Theorem constructor_loop_termination (size : Z) :
  U64.min_int ≤ size ≤ U64.max_int →
  (0 ≤ size →
     ∀ fuel : nat, (64 ≤ fuel)%nat →
       round_up_loop fuel 1 (U64.of_int size) = Some (next_power_of_two size)) ∧
  (U64.min_int < size < 0 →
     ∀ fuel : nat, round_up_loop fuel 1 (U64.of_int size) = None).
Proof.
  intros Hint. rewrite max_int_eq in Hint.
  change U64.min_int with (-9223372036854775808) in *.
  split.
  - intros Hpos fuel Hfuel.
    assert (Hu : U64.of_int size = size).
    { apply wrap_small. rewrite modulus_eq. lia. }
    rewrite Hu. apply round_up_loop_next_power_of_two; [|done].
    change (2 ^ 63) with 9223372036854775808. lia.
  - intros Hneg fuel.
    apply round_up_loop_spins; [right; by exists 0|].
    assert (Hu : U64.of_int size = size + U64.modulus).
    { unfold U64.of_int, U64.wrap. symmetry.
      apply (Z.mod_unique_pos _ _ (-1)); rewrite modulus_eq; lia. }
    rewrite Hu, modulus_eq. change (2 ^ 63) with 9223372036854775808. lia.
Qed.

(** C10 (the guard changes nothing else).  For the same requested size and
    the same sequence of [Push] and [Pop] calls, [NewRingBuffer] and
    [newSPSCRing] end alike (both still looping, both panicking in [make]
    with the same message, or both returning), and from the two fresh
    instances the guarded [RingBuffer[int]] and the unguarded [spscRing]
    return the same results call by call and end with the same [buf],
    [mask], [head] and [tail], the two claim flags being clear. *)
Theorem guarded_unguarded_equivalent (fuel : nat) (size : Z) (ops : list (op Z)) :
  match Queue.NewRingBuffer fuel size, Combined.newSPSCRing fuel size with
  | Some (Returned r0), Some (Returned s0) =>
      Combined.same_ring r0 s0 ∧
      fst (QueueClient.run ops r0) = fst (Combined.run ops s0) ∧
      Combined.same_ring (snd (QueueClient.run ops r0)) (snd (Combined.run ops s0)) ∧
      Queue.pushActive (snd (QueueClient.run ops r0)) = 0 ∧
      Queue.popActive (snd (QueueClient.run ops r0)) = 0
  | Some (Panicked m), Some (Panicked m') => m = m'
  | None, None => True
  | _, _ => False
  end.
Proof.
  pose proof (construction_agrees fuel size) as Hnew.
  destruct (Queue.NewRingBuffer fuel size) as [[r0|m]|],
    (Combined.newSPSCRing fuel size) as [[s0|m']|]; try done.
  destruct (run_agrees ops r0 s0 Hnew) as (evs & r & s & -> & -> & Hrs).
  simpl. destruct Hnew as (Hsame0 & _), Hrs as (Hsame & Hpush & Hpop).
  done.
Qed.

(** * The claims on concrete buffers of [int] *)

Section Instances.
Import Queue QueueClient Scenario.

Lemma fresh2_constructed : NewRingBuffer 64 2 = Some (Returned fresh2).
Proof. reflexivity. Qed.

Lemma holding_one_reachable : reachable holding_one.
Proof.
  apply (reachable_Push 1 fresh2 (Returned true)); [|reflexivity].
  apply (reachable_fresh 64 2). reflexivity.
Qed.

(** [fifo_order] on [NewRingBuffer(2)]: three pushes and two pops. *)
Lemma fifo_order_witness :
  ∃ evs r,
    run [OpPush 10; OpPush 20; OpPop; OpPush 30; OpPop] fresh2 = (evs, r) ∧
    pushed evs = [10; 20; 30] ∧ popped evs = [10; 20] ∧ contents r = [30] ∧
    pushed evs = popped evs ++ contents r.
Proof.
  eexists _, _. split; [reflexivity|]. do 3 (split; [reflexivity|]).
  apply (fifo_order 64 2 fresh2
           [OpPush 10; OpPush 20; OpPop; OpPush 30; OpPop]);
    reflexivity.
Defined.

(** [capacity_bound] on [NewRingBuffer(2)]. *)
Lemma capacity_bound_witness :
  ∃ r_full,
    run (map OpPush [1; 2]) fresh2
      = (map (λ v, EvPush v (Returned true)) [1; 2], r_full) ∧
    (∀ ws : list Z,
       run (map OpPush ws) r_full
         = (map (λ v, EvPush v (Returned false)) ws, r_full)) ∧
    ∃ x r1, Pop r_full = (Returned (x, true), r1) ∧
            ∀ w, ∃ r2, Push w r1 = (Returned true, r2).
Proof.
  apply (capacity_bound 64 2 fresh2 [1; 2]); [lia|reflexivity|reflexivity].
Defined.

(** [push_full_is_noop] on the full two-slot buffer. *)
Lemma push_full_is_noop_witness :
  ∃ r', Push 3 full2 = (Returned false, r') ∧
        head r' = head full2 ∧ tail r' = tail full2 ∧ buf r' = buf full2 ∧
        pushActive r' = 0 ∧ r' = full2.
Proof.
  apply (push_full_is_noop 3 full2); [reflexivity|].
  vm_compute. discriminate.
Defined.

(** [pop_empty_is_noop] on a fresh buffer, through both of its parts. *)
Lemma pop_empty_is_noop_witness :
  (∃ r', Pop fresh2 = (Returned (0, false), r') ∧
         head r' = head fresh2 ∧ tail r' = tail fresh2 ∧
         buf r' = buf fresh2 ∧ popActive r' = 0 ∧ r' = fresh2) ∧
  Pop fresh2 = (Returned (0, false), fresh2).
Proof.
  split.
  - apply (proj1 pop_empty_is_noop fresh2); [reflexivity|simpl; lia].
  - apply (proj2 pop_empty_is_noop 64%nat 2 fresh2). reflexivity.
Defined.



(** C6, the claim as stated, fails: on [NewRingBuffer(1)], [2^64 - 1]
    rounds of [Push(7); Pop()] followed by one more [Push(7)] reach a state
    whose head has wrapped to 0 while its tail is [2^64 - 1]: there
    [tail <= head] is false (and [Len()] is 1). *)
Lemma cursor_order_counterexample :
  reachable (one_slot_wrapped 7) ∧
  ¬ tail (one_slot_wrapped 7) ≤ head (one_slot_wrapped 7) ∧
  Len (one_slot_wrapped 7) = 1.
Proof.
  split_and!; [|simpl; rewrite modulus_eq; lia|reflexivity].
  apply (one_slot_wrapped_reachable 7).
Qed.

(** [cursor_invariants] after two pushes and a pop on [NewRingBuffer(2)]. *)
Lemma cursor_invariants_witness :
  ∃ evs r,
    run [OpPush 1; OpPush 2; OpPop] fresh2 = (evs, r) ∧
    0 ≤ U64.sub (head r) (tail r) ≤ Cap r ∧
    0 ≤ Len r ≤ Cap r ∧
    (len (pushed evs) < U64.modulus →
       tail r ≤ head r ∧ 0 ≤ head r - tail r ≤ Cap r).
Proof.
  eexists _, _. split; [reflexivity|].
  apply (cursor_invariants 64 2 fresh2 [OpPush 1; OpPush 2; OpPop]);
    reflexivity.
Defined.

(** C7, the claim as stated, fails twice.  In the reachable state
    [holding_one], [Push(2)] then [Pop()] yields 1, not 2, and leaves
    [Len() == 1].  And in the reachable empty one-slot state whose cursors
    are both [2^64 - 1], [Push(9)] returns [true] but the [Pop] that
    follows returns the empty result, the head having wrapped to 0. *)
Lemma round_trip_counterexample :
  (reachable holding_one ∧
   fst (Push 2 holding_one) = Returned true ∧
   fst (Pop (snd (Push 2 holding_one))) = Returned (1, true) ∧
   Len (snd (Pop (snd (Push 2 holding_one)))) = 1) ∧
  (reachable (one_slot 7 last_cursor) ∧
   Len (one_slot 7 last_cursor) = 0 ∧
   fst (Push 9 (one_slot 7 last_cursor)) = Returned true ∧
   fst (Pop (snd (Push 9 (one_slot 7 last_cursor)))) = Returned (0, false)).
Proof.
  split; split_and!; try reflexivity.
  - apply holding_one_reachable.
  - by apply one_slot_reachable.
Qed.

(** [round_trip_on_empty] on the fresh two-slot buffer. *)
Lemma round_trip_on_empty_witness :
  ∃ r1 r2, Push 42 fresh2 = (Returned true, r1) ∧
           Pop r1 = (Returned (42, true), r2) ∧
           Len r2 = 0.
Proof.
  apply (round_trip_on_empty 42 fresh2);
    [apply (reachable_fresh 64 2); reflexivity | reflexivity | reflexivity].
Defined.

(** [guard_never_fires] on the fresh two-slot buffer, through each part. *)
Lemma guard_never_fires_witness :
  (fst (Push 1 fresh2) ≠ Panicked push_panic ∧
   pushActive (snd (Push 1 fresh2)) = 0) ∧
  (fst (Pop fresh2) ≠ Panicked pop_panic ∧
   popActive (snd (Pop fresh2)) = 0) ∧
  ∃ evs r,
    run [OpPush 1; OpPop; OpPop; OpPush 2; OpPush 3; OpPush 4] fresh2
      = (evs, r) ∧
    forallb ev_returned evs = true ∧ pushActive r = 0 ∧ popActive r = 0.
Proof.
  destruct (guard_never_fires (T:=Z)) as (Hpush & Hpop & Hrun).
  split; [|split].
  - apply (Hpush 1 fresh2). reflexivity.
  - apply (Hpop fresh2). reflexivity.
  - eexists _, _. split; [reflexivity|].
    apply (Hrun 64%nat 2 fresh2
             [OpPush 1; OpPop; OpPop; OpPush 2; OpPush 3; OpPush 4]);
      reflexivity.
Defined.

(** C9, the claim as stated, fails: the least [int] is negative, but
    [uint64] of it is exactly [2^63], which the doubling [n] reaches after
    63 iterations; the loop exits (and [make] then panics). *)
Lemma constructor_loop_counterexample :
  U64.min_int < 0 ∧
  U64.of_int U64.min_int = 2 ^ 63 ∧
  round_up_loop 64 1 (U64.of_int U64.min_int) = Some (2 ^ 63) ∧
  NewRingBuffer (T:=Z) 64 U64.min_int
    = Some (Panicked "runtime error: makeslice: len out of range").
Proof. split_and!; reflexivity. Qed.

(** [constructor_loop_termination] at the sizes 5 and -1. *)
Lemma constructor_loop_termination_witness :
  round_up_loop 64 1 (U64.of_int 5) = Some 8 ∧
  ∀ fuel : nat, round_up_loop fuel 1 (U64.of_int (-1)) = None.
Proof.
  split.
  - apply (proj1 (constructor_loop_termination 5 ltac:(vm_compute; split; discriminate))
             ltac:(lia) 64%nat ltac:(lia)).
  - apply (proj2 (constructor_loop_termination (-1) ltac:(vm_compute; split; discriminate))
             ltac:(vm_compute; split; reflexivity)).
Defined.

End Instances.


(** * Further properties of the ring buffer *)

Section RingFacts.
Import Queue QueueClient.
Context {T : Type} `{GoType T}.
Implicit Types (r : RingBuffer T) (v : T).

Lemma fresh_contents (fuel : nat) (size : Z) r0 :
  NewRingBuffer fuel size = Some (Returned r0) → contents r0 = [].
Proof.
  intros Hnew.
  destruct (NewRingBuffer_wf _ _ _ Hnew) as (k & _ & Hh0 & Ht0 & _).
  unfold contents. by rewrite Hh0, Ht0.
Qed.

Lemma wf_contents_length k r :
  wf_at k r → len (contents r) = Len r.
Proof.
  intros Hwf. destruct (wf_Len k r Hwf) as [-> _].
  apply contents_length. apply (wrap_range (head r - tail r)).
Qed.

(** With the head wrapped past the tail, the count is the distance the
    long way round. *)
Lemma sub_wrapped h t :
  0 ≤ h < t → t < U64.modulus → U64.sub h t = h - t + U64.modulus.
Proof.
  intros Hh Ht. unfold U64.sub, U64.wrap. symmetry.
  apply (Z.mod_unique_pos _ _ (-1)); lia.
Qed.

(** As long as the tail has that many values before the head, [n] pops in
    a row succeed and return the oldest [n] values. *)
Lemma pops_succeed (n : nat) : ∀ k r,
  wf_at k r →
  tail r + Z.of_nat n ≤ head r →
  ∃ r', run (replicate n OpPop) r
          = (map (λ v, EvPop (Returned (v, true))) (take n (contents r)), r') ∧
        wf_at k r' ∧ head r' = head r ∧ tail r' = tail r + Z.of_nat n ∧
        contents r' = drop n (contents r).
Proof.
  induction n as [|n IH]; intros k r Hwf Hn.
  - exists r. rewrite take_0, drop_0. split_and!; try done. lia.
  - pose proof (wf_head _ _ Hwf) as Hh. pose proof (wf_tail _ _ Hwf) as Ht.
    assert (Hsome : tail r < head r) by lia.
    destruct (Pop_ok k r Hwf Hsome) as (v & Hv & Hpop).
    pose proof (contents_after_pop k v r Hwf Hsome Hv) as Hcont.
    assert (Hadd : U64.add (tail r) 1 = tail r + 1) by (apply wrap_small; lia).
    destruct (IH k (after_pop r)) as (r' & Hrun & Hwf' & Hhead & Htail & Hdrop).
    { by apply after_pop_wf. }
    { simpl. rewrite Hadd. lia. }
    exists r'. unfold run in *. cbn [replicate run_with call].
    rewrite Hpop. simpl. rewrite Hrun, Hcont. simpl.
    split_and!; try done.
    rewrite Htail. simpl. rewrite Hadd. lia.
Qed.

(** What a run of pushes that all succeed leaves stored. *)
Lemma pushes_succeed_contents (vs : list T) k r r' :
  wf_at k r →
  run (map OpPush vs) r = (map (λ v, EvPush v (Returned true)) vs, r') →
  contents r' = contents r ++ vs.
Proof.
  intros Hwf Hrun.
  destruct (run_invariant _ k r _ r' Hwf Hrun) as (_ & _ & Hcont & _).
  assert (Hpushed : pushed (map (λ v, EvPush v (Returned true)) vs) = vs).
  { clear. induction vs as [|v vs IH]; [done|]. simpl. by rewrite IH. }
  assert (Hpopped : popped (map (λ v : T, EvPush v (Returned true)) vs) = []).
  { clear. induction vs as [|v vs IH]; [done|]. simpl. by rewrite IH. }
  by rewrite Hpushed, Hpopped in Hcont.
Qed.

(** One [Push] and the [Pop] after it, on an empty buffer below the last
    cursor value. *)
Lemma push_then_pop k (x : T) r :
  wf_at k r → tail r = head r → head r < U64.modulus - 1 →
  Push x r = (Returned true, after_push x r) ∧
  Pop (after_push x r) = (Returned (x, true), after_pop (after_push x r)) ∧
  wf_at k (after_pop (after_push x r)) ∧
  head (after_pop (after_push x r)) = head r + 1 ∧
  tail (after_pop (after_push x r)) = head r + 1.
Proof.
  intros Hwf Heq Hhead.
  pose proof (wf_head _ _ Hwf) as Hh. pose proof (wf_len _ _ Hwf) as Hlen.
  pose proof (pow2_pos k ltac:(apply Hwf)) as Hpos.
  assert (Hadd : U64.add (head r) 1 = head r + 1) by (apply wrap_small; lia).
  assert (Hroom : U64.sub (head r) (tail r) < len (buf r)).
  { rewrite Heq. unfold U64.sub. rewrite Z.sub_diag. change (U64.wrap 0) with 0. lia. }
  pose proof (after_push_wf k x r Hwf Hroom) as Hwf1.
  assert (Hsome : tail (after_push x r) < head (after_push x r)).
  { simpl. lia. }
  split; [by apply (Push_ok k)|].
  destruct (Pop_ok k (after_push x r) Hwf1 Hsome) as (v & Hv & Hpop).
  simpl in Hv. rewrite Heq, list_lookup_insert_eq in Hv.
  - injection Hv as <-. split_and!; [done| |simpl..].
    + by apply after_pop_wf.
    + done.
    + by rewrite Heq, Hadd.
  - rewrite (slot_index k) by done. by apply (slot_in_range k).
Qed.

End RingFacts.

Section RingExtras.
Import Queue QueueClient.
Context {T : Type} `{GoType T}.
Implicit Types (r : RingBuffer T) (v : T).

(** X1 ([Len] accounting).  After any sequence of calls on a freshly
    constructed buffer, [Len()] is the number of pushes that returned [true]
    minus the number of pops that returned a value. *)
Theorem len_is_pushes_minus_pops (fuel : nat) (size : Z) r0 (ops : list (op T)) evs r :
  NewRingBuffer fuel size = Some (Returned r0) →
  run ops r0 = (evs, r) →
  Len r = len (pushed evs) - len (popped evs).
Proof.
  intros Hnew Hrun.
  destruct (NewRingBuffer_wf _ _ _ Hnew) as (k & Hwf0 & _).
  destruct (run_invariant ops k r0 evs r Hwf0 Hrun) as (_ & Hwf & Hcont & _).
  rewrite (fresh_contents _ _ _ Hnew) in Hcont. simpl in Hcont.
  rewrite <- (wf_contents_length k r Hwf), Hcont.
  unfold len. rewrite length_app. lia.
Qed.

(** X2 ([Push] succeeds exactly when there is room).  In every reachable
    state [Push(v)] returns without panic; it returns [true] if and only if
    [Len() < Cap()]; on [true] it appends [v] to the stored values and
    [Len()] grows by one, on [false] the buffer is unchanged; [Cap()] never
    changes. *)
Theorem push_succeeds_iff_room v r :
  reachable r →
  ∃ (b : bool) r',
    Push v r = (Returned b, r') ∧
    (b = true ↔ Len r < Cap r) ∧
    Cap r' = Cap r ∧
    (if b then contents r' = contents r ++ [v] ∧ Len r' = Len r + 1
     else r' = r).
Proof.
  intros Hreach. destruct (reachable_wf r Hreach) as (k & Hwf).
  destruct (wf_Len k r Hwf) as [HLen _].
  destruct (Z.lt_ge_cases (U64.sub (head r) (tail r)) (len (buf r)))
    as [Hroom|Hfull].
  - exists true, (after_push v r).
    pose proof (after_push_wf k v r Hwf Hroom) as Hwf'.
    destruct (wf_Len k _ Hwf') as [HLen' _].
    split_and!.
    + by apply (Push_ok k).
    + unfold Cap. split; [lia|done].
    + unfold Cap. by rewrite (wf_len _ _ Hwf'), (wf_len _ _ Hwf).
    + by apply (contents_after_push k).
    + rewrite HLen', HLen. simpl. apply sub_add_l.
      pose proof (pow2k_lt_modulus k ltac:(apply Hwf)).
      pose proof (wf_len _ _ Hwf). lia.
  - exists false, r. split_and!; try done.
    + apply Push_full; [apply Hwf|done].
    + unfold Cap. split; [done|lia].
Qed.

(** X3 ([Pop] succeeds exactly when something is stored, below the wrap).
    In every reachable state whose head has not wrapped past its tail
    ([tail <= head]), [Pop()] returns without panic; it returns a value if
    and only if [Len() > 0]; the value is the oldest one stored and [Len()]
    shrinks by one; otherwise it returns the zero value with [false] and the
    buffer is unchanged. *)
Theorem pop_succeeds_iff_nonempty r :
  reachable r →
  tail r ≤ head r →
  ∃ (x : T) (ok : bool) r',
    Pop r = (Returned (x, ok), r') ∧
    (ok = true ↔ 0 < Len r) ∧
    (if ok then contents r = x :: contents r' ∧ Len r' = Len r - 1
     else x = zero_value ∧ r' = r).
Proof.
  intros Hreach Hle. destruct (reachable_wf r Hreach) as (k & Hwf).
  destruct (wf_Len k r Hwf) as [HLen _].
  pose proof (wf_head _ _ Hwf) as Hh. pose proof (wf_tail _ _ Hwf) as Ht.
  rewrite sub_no_wrap in HLen by lia.
  destruct (Z.lt_ge_cases (tail r) (head r)) as [Hsome|Hnone].
  - destruct (Pop_ok k r Hwf Hsome) as (x & Hx & Hpop).
    exists x, true, (after_pop r).
    pose proof (after_pop_wf k r Hwf Hsome) as Hwf'.
    destruct (wf_Len k _ Hwf') as [HLen' _].
    split_and!; try done.
    + split; [lia|done].
    + by apply (contents_after_pop k).
    + rewrite HLen', HLen. simpl.
      assert (Hadd : U64.add (tail r) 1 = tail r + 1) by (apply wrap_small; lia).
      rewrite Hadd, sub_no_wrap; lia.
  - exists zero_value, false, r. split_and!; try done.
    + apply Pop_empty; [apply Hwf|done].
    + split; [done|lia].
Qed.

(** X4 ([Push] touches only the producer's side).  In any state whatever,
    whether [Push] returns [true], [false] or panics, it leaves [tail],
    [mask], [popActive] and the length of the storage unchanged, and changes
    no slot other than [buf[head & mask]]. *)
Theorem push_touches_only_producer_side v r :
  tail (snd (Push v r)) = tail r ∧
  mask (snd (Push v r)) = mask r ∧
  popActive (snd (Push v r)) = popActive r ∧
  length (buf (snd (Push v r))) = length (buf r) ∧
  ∀ i : nat, i ≠ Z.to_nat (Z.land (head r) (mask r)) →
    buf (snd (Push v r)) !! i = buf r !! i.
Proof.
  unfold Push, U64.CompareAndSwap, Push_body.
  destruct (pushActive r =? 0); simpl; [|done].
  destruct (U64.sub (head r) (tail r) >=? len (buf r)); simpl; [done|].
  destruct (Z.land (head r) (mask r) <? len (buf r)); simpl; [|done].
  split_and!; try done.
  - apply length_insert.
  - intros i Hi. by apply list_lookup_insert_ne.
Qed.

(** X5 ([Pop] touches only the consumer's side).  In any state whatever,
    whether [Pop] returns a value, returns empty or panics, it leaves
    [head], [mask], [pushActive] and every slot of the storage unchanged:
    a popped slot keeps its value until a later [Push] overwrites it. *)
Theorem pop_touches_only_consumer_side r :
  head (snd (Pop r)) = head r ∧
  mask (snd (Pop r)) = mask r ∧
  pushActive (snd (Pop r)) = pushActive r ∧
  buf (snd (Pop r)) = buf r.
Proof.
  unfold Pop, U64.CompareAndSwap, Pop_body.
  destruct (popActive r =? 0); simpl; [|done].
  destruct (tail r >=? head r); simpl; [done|].
  by destruct (buf r !! Z.to_nat (Z.land (tail r) (mask r))).
Qed.

(** X6 (contract violation).  A [Push] that begins while the push claim
    flag is set, that is while another [Push] is between its claim and its
    release, panics with the producer message before it reads or writes
    anything: the buffer, the claim included, is left as it was.  Likewise
    [Pop] with the pop claim flag and the consumer message.  The other
    role's flag plays no part: a [Push] may begin while a [Pop] is in
    progress, and conversely. *)
Theorem overlapping_calls_panic :
  (∀ v r, pushActive r ≠ 0 → Push v r = (Panicked push_panic, r)) ∧
  (∀ r, popActive r ≠ 0 → Pop r = (Panicked pop_panic, r)) ∧
  (∀ v r, pushActive r = 0 → fst (Push v (set_popActive 1 r)) = fst (Push v r)) ∧
  (∀ r, popActive r = 0 → fst (Pop (set_pushActive 1 r)) = fst (Pop r)).
Proof.
  split_and!.
  - intros v r Hflag. unfold Push, U64.CompareAndSwap.
    by destruct (Z.eqb_spec (pushActive r) 0).
  - intros r Hflag. unfold Pop, U64.CompareAndSwap.
    by destruct (Z.eqb_spec (popActive r) 0).
  - intros v r Hflag. unfold Push, U64.CompareAndSwap, Push_body. simpl.
    rewrite Hflag. simpl.
    destruct (U64.sub (head r) (tail r) >=? len (buf r)); [done|].
    by destruct (Z.land (head r) (mask r) <? len (buf r)).
  - intros r Hflag. unfold Pop, U64.CompareAndSwap, Pop_body. simpl.
    rewrite Hflag. simpl.
    destruct (tail r >=? head r); [done|].
    by destruct (buf r !! Z.to_nat (Z.land (tail r) (mask r))).
Qed.

(** X7 (draining).  From every reachable state whose head has not wrapped
    past its tail, [Len()] pops in a row return exactly the stored values,
    oldest first; the buffer is then empty and one more [Pop] returns the
    empty result. *)
Theorem drain_returns_contents r :
  reachable r →
  tail r ≤ head r →
  ∃ r', run (replicate (Z.to_nat (Len r)) OpPop) r
          = (map (λ v, EvPop (Returned (v, true))) (contents r), r') ∧
        Len r' = 0 ∧
        Pop r' = (Returned (zero_value, false), r').
Proof.
  intros Hreach Hle. destruct (reachable_wf r Hreach) as (k & Hwf).
  destruct (wf_Len k r Hwf) as [HLen HRange].
  pose proof (wf_head _ _ Hwf) as Hh. pose proof (wf_tail _ _ Hwf) as Ht.
  pose proof (wf_contents_length k r Hwf) as Hclen. unfold len in Hclen.
  rewrite sub_no_wrap in HLen by lia.
  destruct (pops_succeed (Z.to_nat (Len r)) k r Hwf ltac:(lia))
    as (r' & Hrun & Hwf' & Hhead & Htail & Hdrop).
  exists r'. rewrite take_ge in Hrun by lia.
  split_and!; [done| |].
  - destruct (wf_Len k r' Hwf') as [-> _].
    rewrite Hhead, Htail, sub_no_wrap; lia.
  - apply Pop_empty; [apply Hwf'|lia].
Qed.

(** X8 (fill, then drain).  On a freshly constructed buffer, pushing any
    list of at most [Cap()] values and then popping as many times returns
    every push [true] and every pop its value, in the order pushed, and
    leaves the buffer empty. *)
Theorem fill_then_drain (fuel : nat) (size : Z) r0 (vs : list T) :
  NewRingBuffer fuel size = Some (Returned r0) →
  len vs ≤ Cap r0 →
  ∃ r', run (map OpPush vs ++ replicate (length vs) OpPop) r0
          = (map (λ v, EvPush v (Returned true)) vs
             ++ map (λ v, EvPop (Returned (v, true))) vs, r') ∧
        Len r' = 0.
Proof.
  intros Hnew Hvs.
  destruct (NewRingBuffer_wf _ _ _ Hnew) as (k & Hwf0 & Hh0 & Ht0 & _).
  pose proof (wf_len _ _ Hwf0) as Hlen0. unfold Cap in Hvs.
  assert (Hsub0 : U64.sub (head r0) (tail r0) = 0) by by rewrite Hh0, Ht0.
  destruct (pushes_succeed vs k r0 Hwf0 ltac:(lia))
    as (r1 & Hrun1 & Hwf1 & Htail1 & Hcount1).
  pose proof (pushes_succeed_contents vs k r0 r1 Hwf0 Hrun1) as Hcont1.
  rewrite (fresh_contents _ _ _ Hnew) in Hcont1. simpl in Hcont1.
  pose proof (wf_head _ _ Hwf1) as Hh1.
  assert (Hhead1 : head r1 = len vs).
  { rewrite Hsub0, Htail1, Ht0 in Hcount1. unfold U64.sub in Hcount1.
    rewrite Z.sub_0_r, wrap_small in Hcount1 by done. lia. }
  destruct (pops_succeed (length vs) k r1 Hwf1) as (r2 & Hrun2 & Hwf2 & Hhead2 & Htail2 & _).
  { rewrite Htail1, Ht0, Hhead1. unfold len. lia. }
  rewrite Hcont1, firstn_all in Hrun2.
  exists r2. split.
  - apply (run_app _ _ _ _ r1); [done| |done].
    clear. induction vs as [|v vs IH]; [done|]. simpl. by rewrite IH.
  - destruct (wf_Len k r2 Hwf2) as [-> _].
    rewrite Hhead2, Htail2, Htail1, Ht0, Hhead1. unfold len, U64.sub.
    by rewrite Z.add_0_l, Z.sub_diag.
Qed.

(** X9 ([Pop] after the head has wrapped).  In every reachable state whose
    head has wrapped past its tail ([head < tail]), [Pop()] returns the
    empty result and changes nothing, although [Len()] reports at least one
    stored value. *)
Theorem pop_after_head_wrap r :
  reachable r →
  head r < tail r →
  Pop r = (Returned (zero_value, false), r) ∧ 1 ≤ Len r.
Proof.
  intros Hreach Hlt. destruct (reachable_wf r Hreach) as (k & Hwf).
  destruct (wf_Len k r Hwf) as [HLen _].
  pose proof (wf_head _ _ Hwf) as Hh. pose proof (wf_tail _ _ Hwf) as Ht.
  split; [apply Pop_empty; [apply Hwf|lia]|].
  rewrite HLen, sub_wrapped by lia. lia.
Qed.

End RingExtras.

(** * Further properties of the constructor *)

Section ConstructorExtras.
Import Queue QueueClient.
Context {T : Type} `{GoType T}.

Lemma next_power_of_two_tight (c : Z) :
  1 ≤ c → next_power_of_two c < 2 * c.
Proof.
  intros Hc. unfold next_power_of_two.
  destruct (decide (c = 1)) as [->|Hne]; [done|].
  pose proof (Z.log2_up_spec c ltac:(lia)) as [Hlo _].
  pose proof (Z.log2_up_pos c ltac:(lia)) as Hpos.
  replace (Z.log2_up c) with (Z.pred (Z.log2_up c) + 1) by lia.
  rewrite pow2_succ by lia. lia.
Qed.

Lemma next_power_of_two_fixed (j : Z) :
  0 ≤ j → next_power_of_two (2 ^ j) = 2 ^ j.
Proof. intros Hj. unfold next_power_of_two. by rewrite Z.log2_up_pow2. Qed.



End ConstructorExtras.

(** * Further properties of the unguarded ring *)

Section SpscExtras.

(** X12 (the unguarded ring is sound too).  After any sequence of [Push]
    and [Pop] calls on a ring made by [newSPSCRing], no call has panicked
    (no index is ever out of range), and the values of the successful pops
    are, in order, a prefix of the values of the successful pushes; what is
    left over is as many values as the wrapping difference [head - tail]. *)
Theorem spsc_ring_is_fifo (fuel : nat) (size : Z) s0 (ops : list (op Z)) evs s :
  Combined.newSPSCRing fuel size = Some (Returned s0) →
  Combined.run ops s0 = (evs, s) →
  forallb ev_returned evs = true ∧
  ∃ rest, pushed evs = popped evs ++ rest ∧
          len rest = U64.sub (Combined.head s) (Combined.tail s).
Proof.
  intros Hnew Hrun.
  pose proof (construction_agrees fuel size) as Hagree.
  rewrite Hnew in Hagree.
  destruct (Queue.NewRingBuffer fuel size) as [[r0|m]|] eqn:Hnew'; try done.
  destruct (run_agrees ops r0 s0 Hagree) as (evs' & r & s' & Hrun' & Hrun'' & Hrs).
  rewrite Hrun in Hrun''. injection Hrun'' as <- <-.
  destruct (NewRingBuffer_wf _ _ _ Hnew') as (k & Hwf0 & _).
  destruct (run_invariant ops k r0 evs r Hwf0 Hrun') as (Hall & Hwf & Hcont & _).
  rewrite (fresh_contents _ _ _ Hnew') in Hcont. simpl in Hcont.
  split; [done|]. exists (QueueClient.contents r). split; [done|].
  destruct Hrs as ((_ & _ & <- & <-) & _).
  rewrite (wf_contents_length k r Hwf). by destruct (wf_Len k r Hwf) as [-> _].
Qed.

End SpscExtras.

(** * The channel-backed queue, and the ring buffer against it *)

Section ChannelFacts.
Context {T : Type} `{GoType T}.
Implicit Types (q : ChannelQ.ChannelQueue T) (v : T).

(** What one call does to a channel queue within its capacity. *)
Lemma channel_call_invariant (o : op T) q :
  0 ≤ ChannelQ.Len q ≤ ChannelQ.Cap q →
  ∃ e q', call ChannelQ.Push ChannelQ.Pop o q = (e, q') ∧
    ev_returned e = true ∧
    ChannelQ.Cap q' = ChannelQ.Cap q ∧
    0 ≤ ChannelQ.Len q' ≤ ChannelQ.Cap q' ∧
    ChannelQ.ch_buffered q ++ pushed [e] = popped [e] ++ ChannelQ.ch_buffered q'.
Proof.
  unfold ChannelQ.Len, ChannelQ.Cap, len. intros Hq.
  destruct o as [v|]; simpl.
  - unfold ChannelQ.Push, len.
    destruct (Z.ltb_spec (Z.of_nat (length (ChannelQ.ch_buffered q)))
                (ChannelQ.ch_cap q)); eexists _, _; (split; [done|]); simpl.
    + split_and!; try done; rewrite ?length_app; simpl; lia.
    + split_and!; try done; try lia. by rewrite app_nil_r.
  - unfold ChannelQ.Pop.
    destruct (ChannelQ.ch_buffered q) as [|v rest] eqn:Hbuf;
      eexists _, _; (split; [done|]); simpl.
    + rewrite Hbuf. split_and!; try done; simpl in *; lia.
    + simpl in *. split_and!; try done; try lia. by rewrite app_nil_r.
Qed.

Lemma channel_run_invariant (ops : list (op T)) : ∀ q evs q',
  0 ≤ ChannelQ.Len q ≤ ChannelQ.Cap q →
  ChannelQ.run ops q = (evs, q') →
  forallb ev_returned evs = true ∧
  ChannelQ.Cap q' = ChannelQ.Cap q ∧
  0 ≤ ChannelQ.Len q' ≤ ChannelQ.Cap q' ∧
  ChannelQ.ch_buffered q ++ pushed evs = popped evs ++ ChannelQ.ch_buffered q'.
Proof.
  unfold ChannelQ.run.
  induction ops as [|o ops IH]; intros q evs q' Hq Hrun.
  - injection Hrun as <- <-. simpl. by rewrite app_nil_r.
  - cbn [run_with] in Hrun.
    destruct (channel_call_invariant o q Hq)
      as (e & q1 & Hcall & Hret & Hcap & Hq1 & Hcont).
    rewrite Hcall, Hret in Hrun.
    destruct (run_with ChannelQ.Push ChannelQ.Pop ops q1) as [evs1 q2] eqn:Hrest.
    injection Hrun as <- <-.
    destruct (IH q1 evs1 q2 Hq1 Hrest) as (Hall & Hcap2 & Hq2 & Hcont2).
    split_and!; try done; try lia.
    + simpl. by rewrite Hret.
    + rewrite (pushed_cons e evs1), (popped_cons e evs1), app_assoc, Hcont.
      by rewrite <- !app_assoc, Hcont2.
Qed.

(** X13 (the channel queue is a bounded FIFO of exactly the requested
    size).  After any sequence of calls on [NewChannel(size)], [size >= 0]:
    no call has panicked; [Cap()] is [size], not rounded; [Len()] is within
    [[0, Cap()]]; the values of the successful pushes are those of the
    successful pops followed by the values still buffered; and the next
    [Push] returns [true] if and only if [Len() < Cap()], so with [size = 0]
    never. *)
Theorem channel_queue_is_bounded_fifo (size : Z) q0 (ops : list (op T)) evs q :
  ChannelQ.NewChannel size = Returned q0 →
  ChannelQ.run ops q0 = (evs, q) →
  forallb ev_returned evs = true ∧
  ChannelQ.Cap q = size ∧
  0 ≤ ChannelQ.Len q ≤ ChannelQ.Cap q ∧
  pushed evs = popped evs ++ ChannelQ.ch_buffered q ∧
  ∀ v, ∃ (b : bool), fst (ChannelQ.Push v q) = Returned b ∧
                     (b = true ↔ ChannelQ.Len q < ChannelQ.Cap q).
Proof.
  unfold ChannelQ.NewChannel. destruct (Z.ltb_spec size 0) as [|Hsize]; [done|].
  intros [= <-] Hrun.
  destruct (channel_run_invariant ops (ChannelQ.mkChannelQueue [] size) evs q
              ltac:(unfold ChannelQ.Len, ChannelQ.Cap, len; simpl; lia) Hrun)
    as (Hall & Hcap & Hlen & Hcont).
  split_and!; try done; try lia.
  intros v. unfold ChannelQ.Push, ChannelQ.Len, ChannelQ.Cap.
  destruct (Z.ltb_spec (len (ChannelQ.ch_buffered q)) (ChannelQ.ch_cap q));
    [exists true|exists false]; simpl; (split; [done|]); split; (done || lia).
Qed.

End ChannelFacts.

Section RingAgainstChannel.
Import Queue QueueClient.
Context {T : Type} `{GoType T}.
Implicit Types (r : RingBuffer T) (q : ChannelQ.ChannelQueue T).

Lemma call_mirrors k (o : op T) r q :
  mirrors k r q →
  head r < U64.modulus - 1 →
  ∃ e r' q',
    call Push Pop o r = (e, r') ∧
    call ChannelQ.Push ChannelQ.Pop o q = (e, q') ∧
    mirrors k r' q' ∧ head r' ≤ head r + 1.
Proof.
  intros (Hwf & Hle & Hcont & Hcap) Hhead.
  pose proof (wf_head _ _ Hwf) as Hh. pose proof (wf_tail _ _ Hwf) as Ht.
  pose proof (wf_len _ _ Hwf) as Hlen.
  pose proof (wf_contents_length k r Hwf) as Hclen.
  destruct (wf_Len k r Hwf) as [HLen _].
  rewrite HLen, Hcont in Hclen. rewrite sub_no_wrap in Hclen by lia.
  assert (Hadd : U64.add (head r) 1 = head r + 1) by (apply wrap_small; lia).
  destruct o as [v|]; simpl.
  - unfold ChannelQ.Push. rewrite Hcap, Hclen.
    destruct (Z.ltb_spec (head r - tail r) (2 ^ k)) as [Hroom|Hfull].
    + assert (Hroom' : U64.sub (head r) (tail r) < len (buf r)).
      { rewrite sub_no_wrap; lia. }
      rewrite (Push_ok k) by done. eexists _, _, _. split_and!; try done.
      * split_and!; simpl; try done.
        -- by apply after_push_wf.
        -- lia.
        -- by rewrite (contents_after_push k), Hcont.
      * simpl. lia.
    + rewrite Push_full by (apply Hwf || rewrite sub_no_wrap; lia).
      eexists _, _, _. split_and!; try done. lia.
  - unfold ChannelQ.Pop.
    destruct (Z.lt_ge_cases (tail r) (head r)) as [Hsome|Hnone].
    + destruct (Pop_ok k r Hwf Hsome) as (v & Hv & ->).
      pose proof (contents_after_pop k v r Hwf Hsome Hv) as Hpop.
      rewrite Hcont in Hpop. rewrite Hpop.
      assert (Haddt : U64.add (tail r) 1 = tail r + 1) by (apply wrap_small; lia).
      eexists _, _, _. split_and!; try done.
      * split_and!; simpl; try done.
        -- by apply after_pop_wf.
        -- lia.
      * simpl. lia.
    + rewrite Pop_empty by (apply Hwf || lia).
      destruct (ChannelQ.ch_buffered q) as [|v rest] eqn:Hbuf.
      * eexists _, _, _. split_and!; try done; [|lia].
        split_and!; try done. by rewrite Hbuf.
      * unfold len in Hclen. simpl in Hclen. lia.
Qed.

Lemma run_mirrors (ops : list (op T)) : ∀ k r q,
  mirrors k r q →
  head r + len ops < U64.modulus →
  ∃ evs r' q',
    run ops r = (evs, r') ∧
    ChannelQ.run ops q = (evs, q') ∧
    mirrors k r' q'.
Proof.
  unfold run, ChannelQ.run, len.
  induction ops as [|o ops IH]; intros k r q Hrq Hfew.
  - by exists [], r, q.
  - simpl length in Hfew.
    destruct (call_mirrors k o r q Hrq ltac:(lia))
      as (e & r1 & q1 & Hr & Hq & Hrq1 & Hhead).
    assert (Hret : ev_returned e = true).
    { destruct Hrq as (Hwf & _).
      destruct (call_invariant k o r Hwf) as (e' & r' & Hcall & Hret & _).
      rewrite Hr in Hcall. by injection Hcall as <- <-. }
    cbn [run_with]. rewrite Hr, Hq, Hret.
    destruct (IH k r1 q1 Hrq1 ltac:(lia)) as (evs & r2 & q2 & -> & -> & Hrq2).
    by exists (e :: evs), r2, q2.
Qed.

(** X14 (the ring buffer against the channel queue).  Under sequential
    use, for any sequence of fewer than [2^64] calls, a freshly constructed
    ring buffer returns from every [Push] and [Pop] exactly what a
    [ChannelQueue] of capacity [Cap()] returns, and ends storing the values
    the channel has buffered, with the same [Len()]. *)
Theorem ring_buffer_matches_channel_queue
    (fuel : nat) (size : Z) r0 q0 (ops : list (op T)) :
  NewRingBuffer fuel size = Some (Returned r0) →
  ChannelQ.NewChannel (Cap r0) = Returned q0 →
  len ops < U64.modulus →
  fst (run ops r0) = fst (ChannelQ.run ops q0) ∧
  contents (snd (run ops r0)) = ChannelQ.ch_buffered (snd (ChannelQ.run ops q0)) ∧
  Len (snd (run ops r0)) = ChannelQ.Len (snd (ChannelQ.run ops q0)).
Proof.
  intros Hnew Hchan Hfew.
  destruct (NewRingBuffer_wf _ _ _ Hnew) as (k & Hwf0 & Hh0 & Ht0 & _).
  pose proof (wf_len _ _ Hwf0) as Hlen0.
  pose proof (pow2_pos k ltac:(apply Hwf0)) as Hpos.
  unfold ChannelQ.NewChannel, Cap in Hchan. rewrite Hlen0 in Hchan.
  destruct (Z.ltb_spec (2 ^ k) 0) as [|_]; [lia|]. injection Hchan as <-.
  destruct (run_mirrors ops k r0 (ChannelQ.mkChannelQueue [] (2 ^ k)))
    as (evs & r & q & -> & -> & Hwf & _ & Hcont & _).
  { split_and!; try done; [lia|]. by apply (fresh_contents fuel size). }
  { lia. }
  simpl. split_and!; try done.
  unfold ChannelQ.Len. by rewrite <- Hcont, (wf_contents_length k r Hwf).
Qed.

End RingAgainstChannel.

(** * The callers *)

Section CallerExtras.
Import Queue QueueClient Callers.

Lemma push_pop_loop_ring (todo : nat) : ∀ k (r : RingBuffer Z) (i val : Z) (ok : bool),
  wf_at k r → tail r = head r →
  head r + Z.of_nat todo < U64.modulus →
  ∃ r', push_pop_loop todo i val ok r
          = (Returned (if todo is O then (val, ok)
                       else (i + Z.of_nat todo - 1, true)), r') ∧
        wf_at k r' ∧ head r' = head r + Z.of_nat todo ∧ tail r' = head r'.
Proof.
  induction todo as [|todo IH]; intros k r i val ok Hwf Heq Hfew.
  - exists r. simpl. split_and!; try done. lia.
  - destruct (push_then_pop k i r Hwf Heq ltac:(lia))
      as (Hpush & Hpop & Hwf' & Hhead & Htail).
    destruct (IH k (after_pop (after_push i r)) (i + 1) i true Hwf')
      as (r' & Hloop & Hwf'' & Hhead' & Htail').
    { by rewrite Hhead, Htail. }
    { rewrite Hhead. lia. }
    exists r'. cbn [push_pop_loop q_Push q_Pop RingBuffer_Queue].
    rewrite Hpush. cbn [and_then]. rewrite Hpop. cbn [and_then].
    rewrite Hloop. split_and!; try done; [|lia].
    destruct todo; do 3 f_equal; lia.
Qed.


(** X16 (the push/pop loop).  On every freshly constructed
    [RingBuffer[int]], whatever size was requested, the loop that pushes
    [i] and pops once for [i] from 0 below [n] never finds the buffer full
    or empty: for [1 <= n] (an [int]) it ends with [val = n - 1] and
    [ok = true], and the buffer empty. *)
Theorem push_pop_loop_keeps_up (fuel : nat) (size n : Z) (r0 : RingBuffer Z) :
  NewRingBuffer fuel size = Some (Returned r0) →
  1 ≤ n ≤ U64.max_int →
  ∃ r, PushPop n r0 = (Returned (n - 1, true), r) ∧ Len r = 0.
Proof.
  intros Hnew Hn. rewrite max_int_eq in Hn.
  destruct (NewRingBuffer_wf _ _ _ Hnew) as (k & Hwf0 & Hh0 & Ht0 & _).
  destruct (push_pop_loop_ring (Z.to_nat n) k r0 0 0 false Hwf0
              ltac:(congruence) ltac:(rewrite Hh0, modulus_eq; lia))
    as (r & Hloop & Hwf & Hhead & Htail).
  exists r. unfold PushPop. rewrite Hloop. split.
  - destruct (Z.to_nat n) eqn:Hnat; [lia|]. do 3 f_equal. lia.
  - destruct (wf_Len k r Hwf) as [-> _]. rewrite Htail.
    unfold U64.sub. by rewrite Z.sub_diag.
Qed.

End CallerExtras.

(** * The atomic canceler *)

Section CancelExtras.
Import Cancel.

Lemma calls_done (ops : list cancel_op) : ∀ a,
  Done (snd (calls ops a)) = last_write (Done a) ops.
Proof.
  induction ops as [|[| |] ops IH]; intros a; simpl.
  - done.
  - specialize (IH a). by destruct (calls ops a).
  - apply (IH (Cancel a)).
  - apply (IH (Reset a)).
Qed.

Lemma calls_app (ops1 ops2 : list cancel_op) : ∀ a,
  calls (ops1 ++ ops2) a
  = (fst (calls ops1 a) ++ fst (calls ops2 (snd (calls ops1 a))),
     snd (calls ops2 (snd (calls ops1 a)))).
Proof.
  induction ops1 as [|[| |] ops1 IH]; intros a; simpl.
  - by destruct (calls ops2 a).
  - rewrite IH. by destruct (calls ops1 a).
  - apply IH.
  - apply IH.
Qed.

(** X17 (what [Done] reports).  In any sequence of [Done], [Cancel] and
    [Reset] calls on a canceler made by [NewAtomic], a [Done()] returns
    [true] exactly when the last [Cancel] or [Reset] before it was a
    [Cancel]: [false] before any [Cancel], [true] after one however many
    more follow, and [false] again after a [Reset]. *)
Theorem done_reports_last_write (before after : list cancel_op) :
  ∃ earlier later,
    fst (calls (before ++ CallDone :: after) NewAtomic)
      = earlier ++ last_write false before :: later ∧
    earlier = fst (calls before NewAtomic).
Proof.
  rewrite calls_app. simpl.
  destruct (calls after (calls before NewAtomic).2) as [later a'] eqn:Hafter.
  exists (calls before NewAtomic).1, later. split; [|done].
  simpl. by rewrite calls_done.
Qed.

End CancelExtras.

(** * The batch ticker *)

Section TickExtras.
Import Tick.
Context {Time : Type} (Sub : Time → Time → Z) (clock : nat → Time).

#[local] Abbreviation Tick := (Tick.Tick Sub clock).
#[local] Abbreviation ticks := (Tick.ticks Sub clock).
#[local] Abbreviation BatchTicker := (@Tick.BatchTicker Time).

Lemma wrap_int_small z : 0 ≤ z ≤ U64.max_int → wrap_int z = z.
Proof.
  intros Hz. unfold wrap_int, U64.to_int.
  rewrite wrap_small by (rewrite modulus_eq; rewrite max_int_eq in Hz; lia).
  by destruct (Z.leb_spec z U64.max_int); [|lia].
Qed.

(** Counting the multiples of [e] up to [c + 1]. *)
Lemma div_succ c e :
  0 ≤ c → 0 < e →
  (c + 1) / e = c / e + (if (c + 1) mod e =? 0 then 1 else 0).
Proof.
  intros Hc He.
  destruct (Z.eqb_spec ((c + 1) mod e) 0) as [Hz|Hnz];
    Z.div_mod_to_equations; nia.
Qed.

(** What one [Tick] does to the counters, by whether the new count is a
    multiple of [every]. *)
Lemma Tick_step (b : BatchTicker) (reads : nat) :
  1 ≤ every b → 0 ≤ count b → count b + 1 ≤ U64.max_int →
  ∃ fired reading b',
    Tick (b, reads)
      = (Returned (fired, reading),
         (b', if (count b + 1) mod every b =? 0 then S reads else reads)) ∧
    every b' = every b ∧ interval b' = interval b ∧ count b' = count b + 1 ∧
    (if (count b + 1) mod every b =? 0
     then reading = Some (clock reads)
     else fired = false ∧ reading = None).
Proof.
  intros He Hc Hmax. unfold Tick.Tick. simpl.
  rewrite wrap_int_small by lia.
  destruct (Z.eqb_spec (every b) 0) as [|_]; [lia|].
  rewrite Z.rem_mod_nonneg by lia.
  destruct (Z.eqb_spec ((count b + 1) mod every b) 0) as [Hz|Hnz]; simpl.
  - destruct (Sub (clock reads) (lastTick b) >=? interval b);
      by eexists _, _, _.
  - by eexists _, _, _.
Qed.

Lemma ticks_batched (n : nat) : ∀ (b : BatchTicker) (reads : nat) res b' reads',
  1 ≤ every b → 0 ≤ count b → count b + Z.of_nat n ≤ U64.max_int →
  ticks n (b, reads) = (res, (b', reads')) →
  every b' = every b ∧ interval b' = interval b ∧
  count b' = count b + Z.of_nat n ∧
  Z.of_nat reads'
    = Z.of_nat reads + (count b + Z.of_nat n) / every b - count b / every b ∧
  ∀ j : nat, (j < n)%nat →
    ∃ fired reading,
      res !! j = Some (Returned (fired, reading)) ∧
      (if (count b + Z.of_nat j + 1) mod every b =? 0
       then reading = Some (clock (Z.to_nat
              (Z.of_nat reads + (count b + Z.of_nat j + 1) / every b
               - count b / every b - 1)))
       else fired = false ∧ reading = None).
Proof.
  induction n as [|n IH]; intros b reads res b' reads' He Hc Hmax Hrun.
  - injection Hrun as <- <- <-. rewrite Z.add_0_r.
    split_and!; try done; [lia|]. intros j Hj. lia.
  - cbn [Tick.ticks] in Hrun.
    destruct (Tick_step b reads He Hc ltac:(lia))
      as (fired & reading & b1 & Htick & He1 & Hi1 & Hc1 & Hres).
    rewrite Htick in Hrun.
    destruct (ticks n _) as [rest [b2 reads2]] eqn:Hrest.
    injection Hrun as <- <- <-.
    apply IH in Hrest as (He2 & Hi2 & Hc2 & Hreads & Hall); try lia.
    rewrite He1, Hc1 in *.
    pose proof (div_succ (count b) (every b) Hc ltac:(lia)) as Hdiv.
    assert (Hmono : count b / every b ≤ (count b + 1) / every b).
    { apply Z.div_le_mono; lia. }
    split_and!; try congruence; try lia.
    + replace (count b + Z.of_nat (S n)) with (count b + 1 + Z.of_nat n) by lia.
      destruct ((count b + 1) mod every b =? 0); lia.
    + intros [|j] Hj.
      * exists fired, reading. split; [done|].
        rewrite Z.add_0_r.
        destruct ((count b + 1) mod every b =? 0); [|done].
        rewrite Hres. do 2 f_equal. lia.
      * destruct (Hall j ltac:(lia)) as (f & rd & Hlook & Hcase).
        exists f, rd. split; [done|].
        replace (count b + Z.of_nat (S j) + 1)
          with (count b + 1 + Z.of_nat j + 1) by lia.
        destruct ((count b + 1 + Z.of_nat j + 1) mod every b =? 0); [|done].
        rewrite Hcase. do 3 f_equal.
        destruct ((count b + 1) mod every b =? 0); lia.
Qed.

(** X18 (batching).  On a ticker made by [NewBatch(interval, every)], with
    [e] the larger of [every] and 1, [n] calls of [Tick] in a row ([n] an
    [int]) never panic, whatever [every] was; the call numbered [j] (from 1)
    returns [false] without reading the clock unless [e] divides [j], and
    then it reads the next clock reading; so the [n] calls read the clock
    [n / e] times in all. *)
Theorem batch_ticker_reads_clock_every_nth_call
    (interval every0 : Z) (reads0 n : nat) res (b' : BatchTicker) (reads' : nat) :
  Z.of_nat n ≤ U64.max_int →
  ticks n (NewBatch clock interval every0 reads0) = (res, (b', reads')) →
  Every b' = Z.max 1 every0 ∧
  Z.of_nat reads' = Z.of_nat (S reads0) + Z.of_nat n / Z.max 1 every0 ∧
  ∀ j : nat, (j < n)%nat →
    ∃ fired reading,
      res !! j = Some (Returned (fired, reading)) ∧
      (if (Z.of_nat j + 1) mod Z.max 1 every0 =? 0
       then reading = Some (clock (Z.to_nat
              (Z.of_nat reads0 + (Z.of_nat j + 1) / Z.max 1 every0)))
       else fired = false ∧ reading = None).
Proof.
  intros Hn Hrun. unfold NewBatch in Hrun.
  assert (He : (if every0 <? 1 then 1 else every0) = Z.max 1 every0).
  { destruct (Z.ltb_spec every0 1); lia. }
  rewrite He in Hrun.
  apply ticks_batched in Hrun as (He' & _ & _ & Hreads & Hall);
    simpl in *; try lia.
  rewrite Z.div_0_l, Z.sub_0_r, Z.add_0_l in Hreads by lia.
  split_and!; [done|lia|].
  intros j Hj. destruct (Hall j Hj) as (f & rd & Hlook & Hcase).
  exists f, rd. split; [done|].
  rewrite Z.add_0_l in Hcase.
  destruct ((Z.of_nat j + 1) mod Z.max 1 every0 =? 0); [|done].
  rewrite Hcase. do 3 f_equal. rewrite Z.div_0_l by lia. lia.
Qed.

(** X19 ([Reset] starts a new batch).  After [Reset] on a ticker whose
    [every] is at least 1, as [NewBatch] makes it, the count starts again
    from 0 whatever it was: [Reset] reads the clock once, and of the [n]
    calls of [Tick] that follow only those whose number (from 1) is a
    multiple of [every] can fire or read the clock. *)
Theorem batch_ticker_reset_restarts_batch
    (b : BatchTicker) (reads n : nat) res (b' : BatchTicker) (reads' : nat) :
  1 ≤ every b →
  Z.of_nat n ≤ U64.max_int →
  ticks n (Reset clock (b, reads)) = (res, (b', reads')) →
  Z.of_nat reads' = Z.of_nat (S reads) + Z.of_nat n / every b ∧
  ∀ j : nat, (j < n)%nat →
    (Z.of_nat j + 1) mod every b ≠ 0 →
    res !! j = Some (Returned (false, None)).
Proof.
  intros He Hn Hrun. unfold Reset in Hrun.
  apply ticks_batched in Hrun as (_ & _ & _ & Hreads & Hall);
    simpl in *; try lia.
  rewrite Z.div_0_l, Z.sub_0_r, Z.add_0_l in Hreads by lia.
  split; [lia|].
  intros j Hj Hmod. destruct (Hall j Hj) as (f & rd & Hlook & Hcase).
  rewrite Z.add_0_l in Hcase.
  destruct (Z.eqb_spec ((Z.of_nat j + 1) mod every b) 0) as [|_]; [done|].
  by destruct Hcase as [-> ->].
Qed.

(** X20 (fires are spaced).  In any run of [Tick] calls, from any state,
    every call that fires read the clock at least [interval] (by
    [Time.Sub]) after the reading of the fire before it, or, for the first
    fire, after the [lastTick] the run started with. *)
Theorem batch_ticker_fires_are_spaced (n : nat) :
  ∀ (b : BatchTicker) (reads : nat),
    spaced Sub (interval b) (lastTick b) (fst (ticks n (b, reads))).
Proof.
  induction n as [|n IH]; intros b reads; [done|].
  cbn [Tick.ticks]. unfold Tick.Tick. simpl.
  set (c := wrap_int (count b + 1)).
  destruct (every b =? 0).
  - specialize (IH (mkBatchTicker (interval b) (every b) c (lastTick b)) reads).
    simpl in IH. destruct (ticks n _) as [rest w']. done.
  - destruct (negb (Z.rem c (every b) =? 0)).
    + specialize (IH (mkBatchTicker (interval b) (every b) c (lastTick b)) reads).
      simpl in IH. destruct (ticks n _) as [rest w']. done.
    + destruct (Z.geb_spec (Sub (clock reads) (lastTick b)) (interval b)) as [Hge|_].
      * specialize (IH (mkBatchTicker (interval b) (every b) c (clock reads)) (S reads)).
        simpl in IH. destruct (ticks n _) as [rest w']. simpl. split; [lia|done].
      * specialize (IH (mkBatchTicker (interval b) (every b) c (lastTick b)) (S reads)).
        simpl in IH. destruct (ticks n _) as [rest w']. done.
Qed.

End TickExtras.

(** * The atomic and the cycle-counter ticker *)

Section ClockTickers.
Import Tick.

Lemma monotone_lower (nows : list Z) (last last' bound : Z) :
  last' ≤ last → monotone last bound nows → monotone last' bound nows.
Proof. destruct nows as [|now nows]; simpl; [done|]. intros ? [? ?]. split; [lia|done]. Qed.

Lemma monotone_bound (nows : list Z) : ∀ (last bound bound' : Z),
  bound ≤ bound' → monotone last bound nows → monotone last bound' nows.
Proof.
  induction nows as [|now nows IH]; simpl; [done|].
  intros last bound bound' Hb [Hnow Hrest]. split; [lia|]. by apply (IH _ bound).
Qed.

Lemma sub_of_wraps (a b : Z) :
  0 ≤ a - b < U64.modulus → U64.sub (U64.wrap a) (U64.wrap b) = a - b.
Proof.
  intros Hab. unfold U64.sub, U64.wrap.
  rewrite Zminus_mod_idemp_l, Zminus_mod_idemp_r. by apply Z.mod_small.
Qed.

(** X21 (the atomic ticker on a monotonic clock).  When [nanotime()] never
    goes back and stays a non-negative [int64], a run of [Tick] calls, one
    per reading, answers exactly as the ideal ticker: a call fires if and
    only if its reading is at least [interval] after the reading of the last
    fire (at first, of the creation or [Reset]); the [int64] subtraction
    never overflows. *)
Theorem atomic_ticker_is_ideal (nows : list Z) : ∀ a : AtomicTicker,
  0 ≤ a_lastTick a →
  monotone (a_lastTick a) U64.max_int nows →
  fst (atomic_ticks nows a) = ideal_fires (a_interval a) (a_lastTick a) nows.
Proof.
  induction nows as [|now nows IH]; intros a Hlast Hmono; [done|].
  destruct Hmono as [Hnow Hrest].
  cbn [atomic_ticks ideal_fires]. unfold AtomicTick, U64.CompareAndSwap.
  rewrite wrap_int_small by lia. rewrite Z.geb_leb, Z.eqb_refl.
  destruct (a_interval a <=? now - a_lastTick a).
  - assert (Hnow0 : 0 ≤ now) by lia.
    specialize (IH (mkAtomicTicker (a_interval a) now) Hnow0 Hrest).
    simpl in IH. destruct (atomic_ticks nows _) as [rest a']. simpl in *.
    by rewrite IH.
  - specialize (IH a Hlast
                  (monotone_lower nows now (a_lastTick a) _ ltac:(lia) Hrest)).
    destruct (atomic_ticks nows a) as [rest a']. simpl in *. by rewrite IH.
Qed.

(** X22 (the cycle-counter ticker across a wrap of the counter).  Let the
    true cycle counts at the calls never go back and stay less than [2^64]
    cycles after the count of the last fire, and let [rdtsc()] return each
    count modulo [2^64].  Then a run of [Tick] calls answers exactly as the
    ideal ticker does on the true counts: the [uint64] subtraction measures
    the elapsed cycles even when the counter has wrapped in between. *)
Theorem tsc_ticker_survives_counter_wrap {Float : Type} (counts : list Z) :
  ∀ (t : TSCTicker Float) (last : Z),
    t_lastTick t = U64.wrap last →
    monotone last (last + U64.modulus - 1) counts →
    fst (tsc_ticks (map U64.wrap counts) t)
      = ideal_fires (intervalCycles t) last counts.
Proof.
  induction counts as [|now counts IH]; intros t last Hlast Hmono; [done|].
  destruct Hmono as [Hnow Hrest].
  cbn [map tsc_ticks ideal_fires]. unfold TSCTick, U64.CompareAndSwap.
  rewrite Hlast, sub_of_wraps by lia. rewrite Z.geb_leb, Z.eqb_refl.
  destruct (intervalCycles t <=? now - last).
  - specialize (IH (mkTSCTicker (intervalCycles t) (U64.wrap now) (cyclesPerNs t))
                  now eq_refl).
    simpl in IH. rewrite <- IH.
    + by destruct (tsc_ticks _ _) as [rest t'].
    + apply (monotone_bound _ _ (last + U64.modulus - 1)); [lia|done].
  - specialize (IH t last Hlast
                  (monotone_lower counts now last _ ltac:(lia) Hrest)).
    rewrite <- IH. by destruct (tsc_ticks _ t) as [rest t'].
Qed.

End ClockTickers.

(** * The further properties on concrete inputs *)

Section ExtraInstances.
Import Queue QueueClient Scenario.

Lemma full2_reachable : reachable full2.
Proof.
  apply (reachable_Push 2 holding_one (Returned true)); [|reflexivity].
  apply holding_one_reachable.
Qed.

Lemma len_is_pushes_minus_pops_witness :
  ∃ evs r,
    run [OpPush 1; OpPush 2; OpPush 3; OpPop] fresh2 = (evs, r) ∧
    Len r = len (pushed evs) - len (popped evs).
Proof.
  eexists _, _. split; [reflexivity|].
  apply (len_is_pushes_minus_pops 64 2 fresh2 [OpPush 1; OpPush 2; OpPush 3; OpPop]);
    reflexivity.
Defined.

Lemma push_succeeds_iff_room_witness :
  ∃ (b : bool) r',
    Push 5 holding_one = (Returned b, r') ∧
    (b = true ↔ Len holding_one < Cap holding_one) ∧
    Cap r' = Cap holding_one ∧
    (if b then contents r' = contents holding_one ++ [5] ∧ Len r' = Len holding_one + 1
     else r' = holding_one).
Proof. apply (push_succeeds_iff_room 5 holding_one holding_one_reachable). Defined.

Lemma pop_succeeds_iff_nonempty_witness :
  ∃ (x : Z) (ok : bool) r',
    Pop full2 = (Returned (x, ok), r') ∧
    (ok = true ↔ 0 < Len full2) ∧
    (if ok then contents full2 = x :: contents r' ∧ Len r' = Len full2 - 1
     else x = zero_value ∧ r' = full2).
Proof.
  apply (pop_succeeds_iff_nonempty full2 full2_reachable). simpl. lia.
Defined.

Lemma push_touches_only_producer_side_witness :
  tail (snd (Push 9 holding_one)) = tail holding_one ∧
  mask (snd (Push 9 holding_one)) = mask holding_one ∧
  popActive (snd (Push 9 holding_one)) = popActive holding_one ∧
  length (buf (snd (Push 9 holding_one))) = length (buf holding_one) ∧
  ∀ i : nat, i ≠ Z.to_nat (Z.land (head holding_one) (mask holding_one)) →
    buf (snd (Push 9 holding_one)) !! i = buf holding_one !! i.
Proof. apply (push_touches_only_producer_side 9 holding_one). Defined.

Lemma overlapping_calls_panic_witness :
  Push 1 (set_pushActive 1 fresh2) = (Panicked push_panic, set_pushActive 1 fresh2) ∧
  Pop (set_popActive 1 holding_one) = (Panicked pop_panic, set_popActive 1 holding_one) ∧
  fst (Push 1 (set_popActive 1 fresh2)) = fst (Push 1 fresh2) ∧
  fst (Pop (set_pushActive 1 holding_one)) = fst (Pop holding_one).
Proof.
  destruct (overlapping_calls_panic (T:=Z)) as (Hpush & Hpop & Hpush' & Hpop').
  split; [|split; [|split]].
  - apply (Hpush 1 (set_pushActive 1 fresh2)). simpl. lia.
  - apply (Hpop (set_popActive 1 holding_one)). simpl. lia.
  - apply (Hpush' 1 fresh2). reflexivity.
  - apply (Hpop' holding_one). reflexivity.
Defined.

Lemma drain_returns_contents_witness :
  ∃ r', run (replicate (Z.to_nat (Len full2)) OpPop) full2
          = (map (λ v, EvPop (Returned (v, true))) (contents full2), r') ∧
        Len r' = 0 ∧
        Pop r' = (Returned (zero_value, false), r').
Proof.
  apply (drain_returns_contents full2 full2_reachable). simpl. lia.
Defined.

Lemma fill_then_drain_witness :
  ∃ r', run (map OpPush [7; 8] ++ replicate (length [7; 8]) OpPop) fresh2
          = (map (λ v, EvPush v (Returned true)) [7; 8]
             ++ map (λ v, EvPop (Returned (v, true))) [7; 8], r') ∧
        Len r' = 0.
Proof.
  apply (fill_then_drain 64 2 fresh2 [7; 8]); [reflexivity|].
  vm_compute. discriminate.
Defined.

Lemma pop_after_head_wrap_witness :
  Pop (one_slot_wrapped 7) = (Returned (zero_value, false), one_slot_wrapped 7) ∧
  1 ≤ Len (one_slot_wrapped 7).
Proof.
  apply (pop_after_head_wrap (one_slot_wrapped 7));
    [apply (one_slot_wrapped_reachable 7)|reflexivity].
Defined.



Lemma spsc_ring_is_fifo_witness :
  ∃ evs s,
    Combined.run [OpPush 1; OpPush 2; OpPush 3; OpPop; OpPop; OpPop]
      (Combined.mkSpscRing [0; 0] 1 0 0) = (evs, s) ∧
    forallb ev_returned evs = true ∧
    ∃ rest, pushed evs = popped evs ++ rest ∧
            len rest = U64.sub (Combined.head s) (Combined.tail s).
Proof.
  eexists _, _. split; [reflexivity|].
  apply (spsc_ring_is_fifo 64 2 (Combined.mkSpscRing [0; 0] 1 0 0)
           [OpPush 1; OpPush 2; OpPush 3; OpPop; OpPop; OpPop]);
    reflexivity.
Defined.

Lemma channel_queue_is_bounded_fifo_witness :
  ∃ evs q,
    ChannelQ.run [OpPush 1; OpPush 2; OpPush 3; OpPop]
      (ChannelQ.mkChannelQueue [] 2) = (evs, q) ∧
    forallb ev_returned evs = true ∧
    ChannelQ.Cap q = 2 ∧
    0 ≤ ChannelQ.Len q ≤ ChannelQ.Cap q ∧
    pushed evs = popped evs ++ ChannelQ.ch_buffered q ∧
    ∀ v, ∃ (b : bool), fst (ChannelQ.Push v q) = Returned b ∧
                       (b = true ↔ ChannelQ.Len q < ChannelQ.Cap q).
Proof.
  eexists _, _. split; [reflexivity|].
  apply (channel_queue_is_bounded_fifo 2 (ChannelQ.mkChannelQueue [] 2)
           [OpPush 1; OpPush 2; OpPush 3; OpPop]);
    reflexivity.
Defined.

Lemma ring_buffer_matches_channel_queue_witness :
  fst (run [OpPush 1; OpPush 2; OpPush 3; OpPop; OpPush 4] fresh2)
    = fst (ChannelQ.run [OpPush 1; OpPush 2; OpPush 3; OpPop; OpPush 4]
             (ChannelQ.mkChannelQueue [] 2)) ∧
  contents (snd (run [OpPush 1; OpPush 2; OpPush 3; OpPop; OpPush 4] fresh2))
    = ChannelQ.ch_buffered
        (snd (ChannelQ.run [OpPush 1; OpPush 2; OpPush 3; OpPop; OpPush 4]
                (ChannelQ.mkChannelQueue [] 2))) ∧
  Len (snd (run [OpPush 1; OpPush 2; OpPush 3; OpPop; OpPush 4] fresh2))
    = ChannelQ.Len
        (snd (ChannelQ.run [OpPush 1; OpPush 2; OpPush 3; OpPop; OpPush 4]
                (ChannelQ.mkChannelQueue [] 2))).
Proof.
  apply (ring_buffer_matches_channel_queue 64 2 fresh2
           (ChannelQ.mkChannelQueue [] 2));
    reflexivity.
Defined.


Lemma push_pop_loop_keeps_up_witness :
  ∃ r, Callers.PushPop 5 fresh2 = (Returned (5 - 1, true), r) ∧ Len r = 0.
Proof.
  apply (push_pop_loop_keeps_up 64 2 5 fresh2); [reflexivity|].
  vm_compute. split; discriminate.
Defined.

(** A clock that advances 40ns per reading, for a ticker of 100ns. *)
Lemma batch_ticker_reads_clock_every_nth_call_witness :
  ∃ res b' reads',
    Tick.ticks Z.sub (λ n, 40 * Z.of_nat n) 7
      (Tick.NewBatch (λ n, 40 * Z.of_nat n) 100 3 0) = (res, (b', reads')) ∧
    Tick.Every b' = Z.max 1 3 ∧
    Z.of_nat reads' = Z.of_nat 1 + Z.of_nat 7 / Z.max 1 3 ∧
    ∀ j : nat, (j < 7)%nat →
      ∃ fired reading,
        res !! j = Some (Returned (fired, reading)) ∧
        (if (Z.of_nat j + 1) mod Z.max 1 3 =? 0
         then reading = Some (40 * Z.of_nat (Z.to_nat
                (Z.of_nat 0 + (Z.of_nat j + 1) / Z.max 1 3)))
         else fired = false ∧ reading = None).
Proof.
  eexists _, _, _. split; [reflexivity|].
  eapply (batch_ticker_reads_clock_every_nth_call Z.sub (λ n, 40 * Z.of_nat n)
            100 3 0 7); [vm_compute; discriminate|reflexivity].
Defined.

Lemma batch_ticker_reset_restarts_batch_witness :
  ∃ res b' reads',
    Tick.ticks Z.sub (λ n, 40 * Z.of_nat n) 5
      (Tick.Reset (λ n, 40 * Z.of_nat n) (Tick.mkBatchTicker 100 3 2 0, 4%nat))
      = (res, (b', reads')) ∧
    Z.of_nat reads' = Z.of_nat 5 + Z.of_nat 5 / 3 ∧
    ∀ j : nat, (j < 5)%nat →
      (Z.of_nat j + 1) mod 3 ≠ 0 →
      res !! j = Some (Returned (false, None)).
Proof.
  eexists _, _, _. split; [reflexivity|].
  eapply (batch_ticker_reset_restarts_batch Z.sub (λ n, 40 * Z.of_nat n)
            (Tick.mkBatchTicker 100 3 2 0) 4 5);
    [simpl; lia|vm_compute; discriminate|reflexivity].
Defined.

Lemma atomic_ticker_is_ideal_witness :
  fst (Tick.atomic_ticks [10; 50; 120; 130; 250] (Tick.NewAtomicTicker 100 0))
    = [false; false; true; false; true].
Proof.
  apply (atomic_ticker_is_ideal [10; 50; 120; 130; 250] (Tick.NewAtomicTicker 100 0));
    [simpl; lia|].
  cbn [Tick.monotone Tick.a_lastTick Tick.NewAtomicTicker].
  rewrite max_int_eq. lia.
Defined.

(** Counts on both sides of [2^64]: the counter wraps between the first and
    the second call. *)
Lemma tsc_ticker_survives_counter_wrap_witness :
  fst (Tick.tsc_ticks
         (map U64.wrap [U64.modulus - 5; U64.modulus + 20; U64.modulus + 30])
         (Tick.mkTSCTicker 25 (U64.modulus - 10) tt))
    = [false; true; false].
Proof.
  apply (tsc_ticker_survives_counter_wrap
           [U64.modulus - 5; U64.modulus + 20; U64.modulus + 30]
           (Tick.mkTSCTicker 25 (U64.modulus - 10) tt) (U64.modulus - 10));
    [reflexivity|].
  cbn [Tick.monotone]. rewrite modulus_eq. lia.
Defined.

End ExtraInstances.
